(** * web2md: the HTML-to-Markdown conversion engine

    A shallow embedding of [TurndownService] (the simplified turndown
    bundled with the extension) and of [MarkdownConverter]
    (src/markdown-converter.js), with the properties of the rule
    registry, the tree walker, the element transforms and the
    post-processing normalizer.

    JavaScript strings are sequences of UTF-16 code units: a string is a
    [list N].  DOM nodes are a rose tree with the three node kinds the
    code distinguishes.  Regular expressions are run by a backtracking
    matcher that follows the ECMAScript continuation semantics, so every
    [replace] and [match] of the source is the source's own pattern. *)

From Stdlib Require Import List NArith ZArith Arith Bool String Ascii Lia.
From Stdlib Require Import DecimalString DecimalNat.
Import ListNotations.

Set Implicit Arguments.
Set Warnings "-register-all".
Set Warnings "-automation".
Set Warnings "-default".
Local Open Scope N_scope.
Local Open Scope list_scope.

(* ===================================================================== *)
(** ** Strings of code units *)
(* ===================================================================== *)

Definition str := list N.

(** A Rocq string literal read as code units (ASCII literals only). *)
Definition u (s : string) : str :=
  List.map N_of_ascii (list_ascii_of_string s).

Definition LF : N := 10.
Definition CR : N := 13.
Definition TAB : N := 9.
Definition SP : N := 32.
Definition NBSP : N := 160.
Definition DQUOTE : N := 34.
Definition BACKSLASH : N := 92.
Definition PIPE : N := 124.

Definition str_eqb (a b : str) : bool :=
  if list_eq_dec N.eq_dec a b then true else false.

Definition isEmpty (s : str) : bool :=
  match s with [] => true | _ => false end.

(** ECMAScript LineTerminator. *)
Definition isLineTerminator (c : N) : bool :=
  (c =? 10) || (c =? 13) || (c =? 8232) || (c =? 8233).

(** ECMAScript WhiteSpace together with LineTerminator: what [trim]
    strips and what the class [\s] matches. *)
Definition isSpace (c : N) : bool :=
  (c =? 9) || (c =? 11) || (c =? 12) || (c =? 32) || (c =? 160)
  || (c =? 5760) || ((8192 <=? c) && (c <=? 8202)) || (c =? 8239)
  || (c =? 8287) || (c =? 12288) || (c =? 65279)
  || isLineTerminator c.

Definition isDigit (c : N) : bool := (48 <=? c) && (c <=? 57).

(** The class [\w]. *)
Definition isWord (c : N) : bool :=
  ((65 <=? c) && (c <=? 90)) || ((97 <=? c) && (c <=? 122))
  || isDigit c || (c =? 95).

Fixpoint trimStart (s : str) : str :=
  match s with
  | c :: r => if isSpace c then trimStart r else s
  | [] => []
  end.

Definition trimEnd (s : str) : str := rev (trimStart (rev s)).

(** [String.prototype.trim]. *)
Definition trim (s : str) : str := trimEnd (trimStart s).

(** [String.prototype.toLowerCase] and [toUpperCase] on the ASCII
    letters; tag names and filters of this program are ASCII. *)
Definition lowerChar (c : N) : N :=
  if (65 <=? c) && (c <=? 90) then c + 32 else c.
Definition upperChar (c : N) : N :=
  if (97 <=? c) && (c <=? 122) then c - 32 else c.
Definition toLowerCase (s : str) : str := List.map lowerChar s.
Definition toUpperCase (s : str) : str := List.map upperChar s.

(** [s.split(sep)] for a one-code-unit separator: never empty. *)
Fixpoint split (sep : N) (s : str) : list str :=
  match s with
  | [] => [[]]
  | c :: r =>
      if c =? sep then [] :: split sep r
      else match split sep r with
           | l :: ls => (c :: l) :: ls
           | [] => [[c]]
           end
  end.

(** [arr.join(sep)]. *)
Fixpoint join (sep : str) (l : list str) : str :=
  match l with
  | [] => []
  | [x] => x
  | x :: r => x ++ sep ++ join sep r
  end.

(** [s.repeat(n)]. *)
Fixpoint repeatStr (s : str) (n : nat) : str :=
  match n with O => [] | S k => s ++ repeatStr s k end.

(** Decimal rendering of a non-negative integer, as [`${n}`] gives. *)
Definition decimal (n : nat) : str :=
  u (NilEmpty.string_of_uint (Nat.to_uint n)).

(** [arr.map((x, i) => ...)] and [forEach] with the index. *)
Fixpoint mapi_from {A B} (i : nat) (f : nat -> A -> B) (l : list A) : list B :=
  match l with
  | [] => []
  | x :: r => f i x :: mapi_from (S i) f r
  end.
Definition mapi {A B} (f : nat -> A -> B) (l : list A) : list B :=
  mapi_from 0 f l.

(* ===================================================================== *)
(** ** Regular expressions *)
(* ===================================================================== *)

Module RegExp.

(** The fragment of the pattern language the program uses.  Character
    classes, escapes and the dot are predicates on a code unit. *)
Inductive regex : Type :=
| Chr (p : N -> bool)
| Eps
| Seq (a b : regex)
| Alt (a b : regex)
| Rep (greedy : bool) (lo : nat) (hi : option nat) (r : regex)
| Group (i : nat) (r : regex)
| Bol
| Eol.

(** Matcher state: the input split at the current index (the part
    already passed is kept reversed), and the captures so far. *)
Record mstate : Type := MState {
  before : str;
  after : str;
  captures : list (nat * str)
}.

Definition Cont := mstate -> option mstate.

Definition pos (s : mstate) : nat := List.length (before s).

Definition orElse {A} (a b : option A) : option A :=
  match a with Some _ => a | None => b end.

(** The code units between two states of one match, in input order. *)
Definition between (s0 s1 : mstate) : str :=
  rev (firstn (pos s1 - pos s0) (before s1)).

Definition atBol (multiline : bool) (s : mstate) : bool :=
  match before s with
  | [] => true
  | c :: _ => multiline && isLineTerminator c
  end.

Definition atEol (multiline : bool) (s : mstate) : bool :=
  match after s with
  | [] => true
  | c :: _ => multiline && isLineTerminator c
  end.

Definition decHi (hi : option nat) : option nat := option_map pred hi.

Definition isZero (hi : option nat) : bool :=
  match hi with Some O => true | _ => false end.

(** RepeatMatcher of ECMAScript, for the matcher [m] of the repeated
    pattern.  An iteration that consumes nothing once the minimum is
    reached fails, so the number of iterations is bounded by the minimum
    plus the input left: that bound is the fuel.  (The captures of the
    groups inside the repeated pattern are not reset at each iteration:
    no pattern of the program has a group under a quantifier.) *)
Fixpoint repeatMatcher (m : Cont -> mstate -> option mstate) (greedy : bool)
  (k : Cont) (fuel : nat) (lo : nat) (hi : option nat) (s : mstate)
  {struct fuel} : option mstate :=
  match fuel with
  | O => None
  | S fuel' =>
      if isZero hi then k s
      else
        let iter :=
          m (fun s' =>
               if (Nat.eqb lo 0) && (Nat.eqb (pos s') (pos s)) then None
               else repeatMatcher m greedy k fuel' (pred lo) (decHi hi) s') s in
        if negb (Nat.eqb lo 0) then iter
        else if greedy then orElse iter (k s)
        else orElse (k s) iter
  end.

(** ECMAScript's matcher, continuation passing: [k] is what remains to
    be matched after [r]. *)
Fixpoint rmatch (multiline : bool) (r : regex) (k : Cont) (s : mstate)
  {struct r} : option mstate :=
  match r with
  | Chr p =>
      match after s with
      | c :: rest =>
          if p c then k (MState (c :: before s) rest (captures s)) else None
      | [] => None
      end
  | Eps => k s
  | Seq a b => rmatch multiline a (rmatch multiline b k) s
  | Alt a b => orElse (rmatch multiline a k s) (rmatch multiline b k s)
  | Group i r' =>
      rmatch multiline r'
        (fun s' => k (MState (before s') (after s')
                        ((i, between s s') :: captures s'))) s
  | Bol => if atBol multiline s then k s else None
  | Eol => if atEol multiline s then k s else None
  | Rep greedy lo hi r' =>
      repeatMatcher (rmatch multiline r') greedy k
        (S (lo + List.length (after s))) lo hi s
  end.

(** One attempt of the pattern at the current index. *)
Definition matchAt (multiline : bool) (r : regex) (s : mstate) : option mstate :=
  rmatch multiline r (fun s' => Some s')
    (MState (before s) (after s) []).

Definition step (s : mstate) : option mstate :=
  match after s with
  | c :: rest => Some (MState (c :: before s) rest (captures s))
  | [] => None
  end.

(** RegExpBuiltinExec: the first index from [s] on at which the pattern
    matches, with the state at the start and at the end of the match. *)
Fixpoint search (fuel : nat) (multiline : bool) (r : regex) (s : mstate)
  : option (mstate * mstate) :=
  match matchAt multiline r s with
  | Some e => Some (s, e)
  | None =>
      match fuel, step s with
      | S fuel', Some s' => search fuel' multiline r s'
      | _, _ => None
      end
  end.

Definition start (input : str) : mstate := MState [] input [].

Definition exec (multiline : bool) (r : regex) (s : mstate)
  : option (mstate * mstate) :=
  search (List.length (after s)) multiline r s.

(** The value of capture [i]; an undefined capture substitutes as the
    empty string. *)
Fixpoint cap (i : nat) (cs : list (nat * str)) : str :=
  match cs with
  | [] => []
  | (j, v) :: r => if Nat.eqb i j then v else cap i r
  end.

(** A replacer: the matched text and the captures give the new text.  A
    replacement string without [$] is a constant replacer. *)
Definition Replacer := str -> list (nat * str) -> str.

(** [input.replace(/r/g, f)].  After an empty match the next search
    starts one code unit further (AdvanceStringIndex) and that code unit
    is copied to the output ([pending]). *)
Fixpoint replaceLoop (fuel : nat) (multiline : bool) (r : regex)
  (f : Replacer) (pending : str) (s : mstate) : str :=
  match exec multiline r s with
  | None => pending ++ after s
  | Some (s0, s1) =>
      let matched := between s0 s1 in
      let out := pending ++ between s s0 ++ f matched (captures s1) in
      match fuel with
      | O => out ++ after s1
      | S fuel' =>
          if isEmpty matched then
            match after s1 with
            | [] => out
            | c :: rest =>
                out ++ replaceLoop fuel' multiline r f [c]
                         (MState (c :: before s1) rest [])
            end
          else out ++ replaceLoop fuel' multiline r f [] s1
      end
  end.

Definition replaceAll (multiline : bool) (r : regex) (f : Replacer)
  (input : str) : str :=
  replaceLoop (S (List.length input)) multiline r f [] (start input).

(** [input.match(/r/)] without the g flag: the captures of the first
    match, or [None] for [null]. *)
Definition matchFirst (multiline : bool) (r : regex) (input : str)
  : option (str * list (nat * str)) :=
  match exec multiline r (start input) with
  | Some (s0, s1) => Some (between s0 s1, captures s1)
  | None => None
  end.

(** Pattern syntax. *)
Definition lit (c : N) : regex := Chr (N.eqb c).
Fixpoint lits (s : str) : regex :=
  match s with
  | [] => Eps
  | [c] => lit c
  | c :: r => Seq (lit c) (lits r)
  end.
Definition plus (r : regex) : regex := Rep true 1 None r.
Definition star (r : regex) : regex := Rep true 0 None r.
Definition lazyStar (r : regex) : regex := Rep false 0 None r.
Definition atLeast (n : nat) (r : regex) : regex := Rep true n None r.
Definition fromTo (n m : nat) (r : regex) : regex := Rep true n (Some m) r.
Definition dot : regex := Chr (fun c => negb (isLineTerminator c)).
Definition anyChar : regex := Chr (fun _ => true).
Definition oneOf (s : str) : regex :=
  Chr (fun c => existsb (N.eqb c) s).
Definition constant (s : str) : Replacer := fun _ _ => s.

End RegExp.

(* ===================================================================== *)
(** ** JavaScript values and completions *)
(* ===================================================================== *)

(** The values an option or an argument can hold: the primitives (with
    integers for numbers) and a plain object. *)
Inductive JSValue : Type :=
| VUndefined
| VNull
| VBool (b : bool)
| VNum (n : Z)
| VStr (s : str)
| VObject.

(** ToBoolean. *)
Definition truthy (v : JSValue) : bool :=
  match v with
  | VUndefined | VNull => false
  | VBool b => b
  | VNum n => negb (Z.eqb n 0)
  | VStr s => negb (isEmpty s)
  | VObject => true
  end.

Definition isString (v : JSValue) : bool :=
  match v with VStr _ => true | _ => false end.

(** [a || b]. *)
Definition jsOr (a b : JSValue) : JSValue := if truthy a then a else b.

(** ToString, as a template literal applies it.  A number is an integer
    of fewer than 22 digits, which prints as its decimal digits; beyond
    that the host switches to the exponent form. *)
Definition toJSString (v : JSValue) : str :=
  match v with
  | VUndefined => u "undefined"
  | VNull => u "null"
  | VBool true => u "true"
  | VBool false => u "false"
  | VNum n => u (NilZero.string_of_int (Z.to_int n))
  | VStr s => s
  | VObject => u "[object Object]"
  end.

(** An [Error] object, by its name and message. *)
Record JSError : Type := MkError { errName : str; errMessage : str }.

(** How a call ends: a value, or a thrown error. *)
Inductive completion (A : Type) : Type :=
| Normal (a : A)
| Throw (e : JSError).
Arguments Normal {A} a.
Arguments Throw {A} e.

(** Binding for partial results: [None] is a walk that did not finish
    within the fuel (the host call stack). *)
Notation "x <- c ;; k" :=
  (match c with Some x => k | None => None end)
  (at level 61, c at next level, right associativity).

(* ===================================================================== *)
(** ** DOM nodes *)
(* ===================================================================== *)

(** The node kinds the walker distinguishes.  [tag] is the local name of
    an HTML element (lower case, as the parser and [createElement] give
    it); attributes are in source order. *)
Inductive Node : Type :=
| Text (data : str)
| Comment (data : str)
| Element (tag : str) (attrs : list (str * str)) (children : list Node).

Definition isElement (n : Node) : bool :=
  match n with Element _ _ _ => true | _ => false end.

Definition isText (n : Node) : bool :=
  match n with Text _ => true | _ => false end.

(** [node.nodeName]: upper case for an HTML element. *)
Definition nodeName (n : Node) : str :=
  match n with
  | Text _ => u "#text"
  | Comment _ => u "#comment"
  | Element tag _ _ => toUpperCase tag
  end.

Definition childNodes (n : Node) : list Node :=
  match n with Element _ _ cs => cs | _ => [] end.

(** [node.children]: the element children. *)
Definition elementChildren (n : Node) : list Node :=
  filter isElement (childNodes n).

(** [node.getAttribute(name)]: [None] for [null]. *)
Fixpoint lookupAttr (name : str) (l : list (str * str)) : option str :=
  match l with
  | [] => None
  | (k, v) :: r => if str_eqb k name then Some v else lookupAttr name r
  end.

Definition getAttribute (name : str) (n : Node) : option str :=
  match n with Element _ a _ => lookupAttr name a | _ => None end.

(** [getAttribute(name) || dflt]. *)
Definition attrOr (name : str) (dflt : str) (n : Node) : str :=
  match getAttribute name n with
  | Some v => if isEmpty v then dflt else v
  | None => dflt
  end.

(** The proper descendants in document order. *)
Fixpoint descendants (n : Node) : list Node :=
  match n with
  | Element _ _ cs => flat_map (fun c => c :: descendants c) cs
  | _ => []
  end.

(** [node.textContent]: the data of a text or comment node; for an
    element the data of its text descendants, concatenated. *)
Definition textData (n : Node) : str :=
  match n with Text s => s | _ => [] end.

Definition textContent (n : Node) : str :=
  match n with
  | Text s => s
  | Comment s => s
  | Element _ _ _ => List.concat (List.map textData (descendants n))
  end.

(** [innerText] of an element that is not rendered (a parsed or detached
    tree) is its [textContent]. *)
Definition innerText (n : Node) : str := textContent n.

(** A type selector, or a list of them (['td, th']), on an element. *)
Definition hasTag (tags : list str) (n : Node) : bool :=
  match n with
  | Element tag _ _ => existsb (str_eqb tag) tags
  | _ => false
  end.

Definition querySelectorAll (tags : list str) (n : Node) : list Node :=
  filter (hasTag tags) (descendants n).

Definition querySelector (tags : list str) (n : Node) : option Node :=
  hd_error (querySelectorAll tags n).

(** Removing every element a selector list finds, with its subtree:
    [root.querySelectorAll(sel).forEach(e => e.remove())]. *)
Fixpoint removeAll (tags : list str) (n : Node) : Node :=
  match n with
  | Element tag a cs =>
      Element tag a
        ((fix keep (l : list Node) : list Node :=
            match l with
            | [] => []
            | c :: r =>
                if hasTag tags c then keep r else removeAll tags c :: keep r
            end) cs)
  | _ => n
  end.

(* ===================================================================== *)
(** ** TurndownService: the rule registry and the tree walker *)
(* ===================================================================== *)

Module TurndownService.

(** A rule's filter: a tag name, an array of filters, or a predicate on
    the node; anything else matches nothing.  A node is handed over with
    its [parentNode], which the tree itself does not record. *)
Inductive Filter : Type :=
| FTag (s : str)
| FList (l : list Filter)
| FPred (p : option Node -> Node -> bool)
| FOther.

(** [this.processNode], as a replacement function may call it back. *)
Definition Self := option Node -> Node -> option str.

(** [replacement(content, node)], with the service it closes over. *)
Definition Replacement := Self -> str -> option Node -> Node -> option str.

Record Rule : Type := MkRule {
  name : str;
  filter : Filter;
  replacement : Replacement
}.

Record Options : Type := MkOptions {
  headingStyle : JSValue;
  codeBlockStyle : JSValue;
  emDelimiter : JSValue;
  strongDelimiter : JSValue;
  linkStyle : JSValue;
  br : JSValue;
  hr : JSValue
}.

Record Service : Type := MkService {
  options : Options;
  rules : list Rule
}.

(** [this.rules.unshift({ name, ...rule })] *)
Definition addRule (nm : str) (f : Filter) (r : Replacement) (this : Service)
  : Service :=
  MkService (options this) (MkRule nm f r :: rules this).

Fixpoint matchesFilter (parent : option Node) (node : Node) (f : Filter)
  : bool :=
  match f with
  | FTag s => str_eqb (toLowerCase (nodeName node)) (toLowerCase s)
  | FList l => existsb (matchesFilter parent node) l
  | FPred p => p parent node
  | FOther => false
  end.

Fixpoint findMatchingRule (rs : list Rule) (parent : option Node) (node : Node)
  : option Rule :=
  match rs with
  | [] => None
  | rule :: rest =>
      if matchesFilter parent node (filter rule) then Some rule
      else findMatchingRule rest parent node
  end.

(** The loop of [processChildren]: [result += process(child)] over the
    child nodes in order. *)
Fixpoint concatM (process : Node -> option str) (cs : list Node) : option str :=
  match cs with
  | [] => Some []
  | c :: r =>
      out <- process c ;;
      rest <- concatM process r ;;
      Some (out ++ rest)
  end.

(** [processNode], with the depth of the host call stack as fuel. *)
Fixpoint processNode (fuel : nat) (rs : list Rule) (parent : option Node)
  (node : Node) : option str :=
  match fuel with
  | O => None
  | S fuel' =>
      match node with
      | Text s => Some s
      | Comment _ => Some []
      | Element _ _ cs =>
          let processChildren := concatM (processNode fuel' rs (Some node)) cs in
          match findMatchingRule rs parent node with
          | Some rule =>
              content <- processChildren ;;
              replacement rule (processNode fuel' rs) content parent node
          | None => processChildren
          end
      end
  end.

Definition processChildren (fuel : nat) (rs : list Rule) (node : Node)
  : option str :=
  concatM (processNode fuel rs (Some node)) (childNodes node).

(** The document element above a parsed [body]. *)
Definition documentElement (body : Node) : Node :=
  Element (u "html") [] [Element (u "head") [] []; body].

(** [turndown(input)] on the [body] of a parsed document. *)
Definition turndown (fuel : nat) (this : Service) (body : Node) : option str :=
  out <- processNode fuel (rules this) (Some (documentElement body)) body ;;
  Some (trim out).

(** [items.forEach((item, index) => ...)] building up a string. *)
Fixpoint forEachM {A} (f : nat -> A -> str -> option str) (i : nat)
  (l : list A) (acc : str) : option str :=
  match l with
  | [] => Some acc
  | x :: r => acc' <- f i x acc ;; forEachM f (S i) r acc'
  end.

Definition NL : str := [LF].
Definition NL2 : str := [LF; LF].

(** [title ? ` "${title}"` : ''] *)
Definition titlePart (title : option str) : str :=
  match title with
  | Some t => if isEmpty t then [] else [SP; DQUOTE] ++ t ++ [DQUOTE]
  | None => []
  end.

(** [parseInt(node.nodeName.charAt(1))] as a repeat count: [NaN] repeats
    zero times. *)
Definition headingLevel (node : Node) : nat :=
  match nth_error (nodeName node) 1 with
  | Some c => if isDigit c then N.to_nat (c - 48) else 0
  | None => 0
  end.

Section DefaultRules.
Variable o : Options.

Definition paragraph_replacement : Replacement :=
  fun _ content _ _ => Some (NL2 ++ content ++ NL2).

Definition heading_replacement : Replacement :=
  fun _ content _ node =>
    let prefix := repeatStr (u "#") (headingLevel node) in
    Some (NL2 ++ prefix ++ [SP] ++ content ++ NL2).

Definition strong_replacement : Replacement :=
  fun _ content _ _ =>
    let d := toJSString (strongDelimiter o) in
    Some (if isEmpty (trim content) then [] else d ++ content ++ d).

Definition emphasis_replacement : Replacement :=
  fun _ content _ _ =>
    let d := toJSString (emDelimiter o) in
    Some (if isEmpty (trim content) then [] else d ++ content ++ d).

Definition link_replacement : Replacement :=
  fun _ content _ node =>
    match getAttribute (u "href") node with
    | Some href =>
        if isEmpty href then Some content
        else Some (u "[" ++ content ++ u "](" ++ href
                     ++ titlePart (getAttribute (u "title") node) ++ u ")")
    | None => Some content
    end.

Definition image_replacement : Replacement :=
  fun _ _ _ node =>
    let alt := attrOr (u "alt") [] node in
    match getAttribute (u "src") node with
    | Some src =>
        if isEmpty src then Some (u "[" ++ alt ++ u "]")
        else Some (u "![" ++ alt ++ u "](" ++ src
                     ++ titlePart (getAttribute (u "title") node) ++ u ")")
    | None => Some (u "[" ++ alt ++ u "]")
    end.

Definition code_replacement : Replacement :=
  fun _ content parent _ =>
    let inPre := match parent with
                 | Some p => str_eqb (nodeName p) (u "PRE")
                 | None => false
                 end in
    if inPre then Some content
    else Some (if isEmpty (trim content) then []
               else u "`" ++ content ++ u "`").

Definition codeBlock_replacement : Replacement :=
  fun _ _ _ node =>
    let text := match querySelector [u "code"] node with
                | Some codeNode => textContent codeNode
                | None => textContent node
                end in
    Some (NL2 ++ u "```" ++ NL ++ text ++ NL ++ u "```" ++ NL2).

Definition lineBreak_replacement : Replacement :=
  fun _ _ _ _ => Some (toJSString (br o)).

Definition horizontalRule_replacement : Replacement :=
  fun _ _ _ _ => Some (NL2 ++ toJSString (hr o) ++ NL2).

Definition blockquote_replacement : Replacement :=
  fun _ content _ _ =>
    let lines := split LF (trim content) in
    let quotedLines := List.map (fun line => u "> " ++ trim line) lines in
    Some (NL2 ++ join NL quotedLines ++ NL2).

(** The marker of list item number [index]. *)
Definition marker (isOrdered : bool) (index : nat) : str :=
  if isOrdered then decimal (index + 1) ++ u ". " else u "- ".

Definition list_replacement : Replacement :=
  fun self _ _ node =>
    let isOrdered := str_eqb (nodeName node) (u "OL") in
    let items :=
      List.filter (fun child => str_eqb (nodeName child) (u "LI"))
        (elementChildren node) in
    result <-
      forEachM
        (fun index item result =>
           out <- self (Some node) item ;;
           let text := trim out in
           Some (if isEmpty text then result
                 else result ++ marker isOrdered index ++ text ++ NL))
        0 items NL2 ;;
    Some (result ++ NL).

Definition listItem_replacement : Replacement :=
  fun _ content _ _ => Some (trim content).

Definition hTags : list Filter :=
  List.map (fun s => FTag (u s)) ["h1"; "h2"; "h3"; "h4"; "h5"; "h6"]%string.

(** [initDefaultRules], on a service without rules. *)
Definition initDefaultRules (this : Service) : Service :=
  let this := addRule (u "paragraph") (FTag (u "p")) paragraph_replacement this in
  let this := addRule (u "heading") (FList hTags) heading_replacement this in
  let this := addRule (u "strong")
                (FList [FTag (u "strong"); FTag (u "b")]) strong_replacement this in
  let this := addRule (u "emphasis")
                (FList [FTag (u "em"); FTag (u "i")]) emphasis_replacement this in
  let this := addRule (u "link") (FTag (u "a")) link_replacement this in
  let this := addRule (u "image") (FTag (u "img")) image_replacement this in
  let this := addRule (u "code") (FTag (u "code")) code_replacement this in
  let this := addRule (u "codeBlock") (FTag (u "pre")) codeBlock_replacement this in
  let this := addRule (u "lineBreak") (FTag (u "br")) lineBreak_replacement this in
  let this := addRule (u "horizontalRule") (FTag (u "hr")) horizontalRule_replacement this in
  let this := addRule (u "blockquote") (FTag (u "blockquote")) blockquote_replacement this in
  let this := addRule (u "list")
                (FList [FTag (u "ul"); FTag (u "ol")]) list_replacement this in
  addRule (u "listItem") (FTag (u "li")) listItem_replacement this.

End DefaultRules.

(** The constructor: every option is [options.x || default]; nothing is
    checked. *)
Definition defaults (given : Options) : Options :=
  MkOptions
    (jsOr (headingStyle given) (VStr (u "atx")))
    (jsOr (codeBlockStyle given) (VStr (u "fenced")))
    (jsOr (emDelimiter given) (VStr (u "_")))
    (jsOr (strongDelimiter given) (VStr (u "**")))
    (jsOr (linkStyle given) (VStr (u "inlineLink")))
    (jsOr (br given) (VStr NL))
    (jsOr (hr given) (VStr (u "---"))).

(** Modelled from the spec: the option values the configuration table
    of the spec lists as supported (an absent option takes its default);
    the source has no such check. *)
Definition oneOfValues (allowed : list str) (v : JSValue) : bool :=
  match v with
  | VUndefined => true
  | VStr s => existsb (str_eqb s) allowed
  | _ => false
  end.

Definition supported (given : Options) : bool :=
  oneOfValues [u "atx"] (headingStyle given)
  && oneOfValues [u "fenced"] (codeBlockStyle given)
  && oneOfValues [u "_"; u "*"] (emDelimiter given)
  && oneOfValues [u "**"; u "__"] (strongDelimiter given)
  && oneOfValues [u "inlineLink"] (linkStyle given).

Definition new (given : Options) : completion Service :=
  let o := defaults given in
  Normal (initDefaultRules o (MkService o [])).

End TurndownService.

(* ===================================================================== *)
(** ** MarkdownConverter: the element transforms *)
(* ===================================================================== *)

Module MarkdownConverter.
Import RegExp.
Import TurndownService.

(** [a || b] on strings. *)
Definition strOr (a b : str) : str := if isEmpty a then b else a.

(** [/\|/g] *)
Definition rePipe : regex := lit PIPE.

(** [/language-(\w+)/] *)
Definition reLanguage : regex :=
  Seq (lits (u "language-")) (Group 1 (plus (Chr isWord))).

(** The text of one table cell, as [convertTable] maps it. *)
Definition cellContent (cell : Node) : str :=
  let content := strOr (textContent cell) (strOr (innerText cell) []) in
  replaceAll false rePipe (constant [BACKSLASH; PIPE]) (trim content).

(** [`| ${cells.join(' | ')} |\n`] *)
Definition rowLine (cells : list str) : str :=
  u "| " ++ join (u " | ") cells ++ u " |" ++ NL.

Definition isSome {A} (x : option A) : bool :=
  match x with Some _ => true | None => false end.

Definition convertTable (tableNode : Node) : str :=
  let rows := querySelectorAll [u "tr"] tableNode in
  match rows with
  | [] => []
  | firstRow :: _ =>
      let hasHeader :=
        isSome (querySelector [u "thead"] tableNode)
        || isSome (querySelector [u "th"] firstRow) in
      let markdown :=
        fold_left
          (fun markdown '(rowIndex, row) =>
             let cells := querySelectorAll [u "td"; u "th"] row in
             let cellContents := List.map cellContent cells in
             let markdown := markdown ++ rowLine cellContents in
             if Nat.eqb rowIndex 0 && hasHeader then
               markdown ++ rowLine (List.map (fun _ => u "---") cellContents)
             else markdown)
          (mapi (fun i row => (i, row)) rows) NL2 in
      markdown ++ NL
  end.

Definition convertCodeBlock (preNode : Node) : str :=
  match querySelector [u "code"] preNode with
  | None => []
  | Some codeNode =>
      let content :=
        strOr (textContent codeNode) (strOr (innerText codeNode) []) in
      let className := attrOr (u "class") [] codeNode in
      let language :=
        match matchFirst false reLanguage className with
        | Some (_, cs) => cap 1 cs
        | None => []
        end in
      NL2 ++ u "```" ++ language ++ NL ++ content ++ NL ++ u "```" ++ NL2
  end.

(** *** The post-processing normalizer *)

Definition BACKTICK : N := 96.
Definition HASH : N := 35.
Definition GT : N := 62.
Definition fence : str := [BACKTICK; BACKTICK; BACKTICK].

(** [/\n{3,}/g] *)
Definition reBlankRuns : regex := atLeast 3 (lit LF).

(** [/^[ \t]+|[ \t]+$/gm] *)
Definition reEdgeSpace : regex :=
  Alt (Seq Bol (plus (oneOf [SP; TAB]))) (Seq (plus (oneOf [SP; TAB])) Eol).

(** [/^([-*+]|\d+\.)\s/gm] *)
Definition reListMarker : regex :=
  Seq Bol
    (Seq (Group 1 (Alt (oneOf (u "-*+")) (Seq (plus (Chr isDigit)) (lit 46))))
         (Chr isSpace)).

(** [/^(#{1,6})\s(.+)$/gm] *)
Definition reHeading : regex :=
  Seq Bol
    (Seq (Group 1 (fromTo 1 6 (lit HASH)))
       (Seq (Chr isSpace) (Seq (Group 2 (plus dot)) Eol))).

(** [/^>\s*$/gm] *)
Definition reQuoteBlank : regex :=
  Seq Bol (Seq (lit GT) (Seq (star (Chr isSpace)) Eol)).

(** [/(^|\n)(```[\s\S]*?```)/g], without the m flag. *)
Definition reFenced : regex :=
  Seq (Group 1 (Alt Bol (lit LF)))
      (Group 2 (Seq (lits fence) (Seq (lazyStar anyChar) (lits fence)))).

Definition postProcess (markdown : str) : str :=
  let markdown := replaceAll false reBlankRuns (constant [LF; LF]) markdown in
  let markdown := replaceAll true reEdgeSpace (constant []) markdown in
  let markdown := replaceAll true reListMarker (fun m _ => m) markdown in
  let markdown :=
    replaceAll true reHeading
      (fun _ cs => cap 1 cs ++ [SP] ++ trim (cap 2 cs)) markdown in
  let markdown := replaceAll true reQuoteBlank (constant [GT]) markdown in
  let markdown :=
    replaceAll false reFenced
      (fun _ cs => [LF; LF] ++ cap 2 cs ++ [LF; LF]) markdown in
  trim markdown.

Section Host.

(** The host's HTML round trip in [getTextContent]: the [body] that
    [DOMParser] builds from the [innerHTML] of an element with the given
    children. *)
Variable reparse : list Node -> Node.

(** [this.converter.turndown(tempDiv.innerHTML)], inside a replacement:
    the converter is the service whose walker is [self]. *)
Definition turndownInner (self : Self) (tempDiv : Node) : option str :=
  let body := reparse (childNodes tempDiv) in
  out <- self (Some (documentElement body)) body ;;
  Some (trim out).

Definition getTextContent (self : Self) (element : Node) : option str :=
  let tempDiv := Element (u "div") [] [element] in
  let tempDiv := removeAll [u "ul"; u "ol"] tempDiv in
  turndownInner self tempDiv.

(** One emitted item: the marker on the first line, the indent on the
    others. *)
Definition formatItem (isOrdered : bool) (index : nat) (content : str) : str :=
  let prefix := marker isOrdered index in
  let lines := split LF content in
  let formattedLines :=
    mapi (fun lineIndex line =>
            if Nat.eqb lineIndex 0 then prefix ++ line
            else (if isOrdered then u "   " else u "  ") ++ line) lines in
  join NL formattedLines ++ NL.

Definition convertList (self : Self) (listNode : Node) : option str :=
  let isOrdered := str_eqb (toLowerCase (nodeName listNode)) (u "ol") in
  let items := querySelectorAll [u "li"] listNode in
  match items with
  | [] => Some []
  | _ :: _ =>
      markdown <-
        forEachM
          (fun index item markdown =>
             out <- getTextContent self item ;;
             let content := trim out in
             Some (if isEmpty content then markdown
                   else markdown ++ formatItem isOrdered index content))
          0 items NL2 ;;
      Some (markdown ++ NL)
  end.

Definition imagePlaceholder : str := [22270; 29255].

Definition images_replacement : Replacement :=
  fun _ _ _ node =>
    let alt := attrOr (u "alt") imagePlaceholder node in
    let src := attrOr (u "src") [] node in
    let title := attrOr (u "title") [] node in
    if isEmpty src then Some (u "[" ++ alt ++ u "]")
    else Some (u "![" ++ alt ++ u "](" ++ src ++ titlePart (Some title) ++ u ")").

Definition strikethrough_replacement : Replacement :=
  fun _ content _ _ =>
    Some (if isEmpty (trim content) then [] else u "~~" ++ content ++ u "~~").

Definition underline_replacement : Replacement :=
  fun _ content _ _ =>
    Some (if isEmpty (trim content) then []
          else u "<u>" ++ content ++ u "</u>").

Definition blockquotes_replacement : Replacement :=
  fun _ content _ _ =>
    let lines := split LF (trim content) in
    let quotedLines :=
      List.map (fun line =>
                  let trimmed := trim line in
                  if isEmpty trimmed then u ">" else u "> " ++ trimmed) lines in
    Some (NL2 ++ join NL quotedLines ++ NL2).

Definition isPreWithCode (_ : option Node) (node : Node) : bool :=
  str_eqb (nodeName node) (u "PRE") && isSome (querySelector [u "code"] node).

Definition initCustomRules (converter : Service) : Service :=
  let c := addRule (u "tables") (FTag (u "table"))
             (fun _ _ _ node => Some (convertTable node)) converter in
  let c := addRule (u "improvedLists") (FList [FTag (u "ul"); FTag (u "ol")])
             (fun self _ _ node => convertList self node) c in
  let c := addRule (u "codeBlocks") (FPred isPreWithCode)
             (fun _ _ _ node => Some (convertCodeBlock node)) c in
  let c := addRule (u "images") (FTag (u "img")) images_replacement c in
  let c := addRule (u "strikethrough")
             (FList [FTag (u "del"); FTag (u "s"); FTag (u "strike")])
             strikethrough_replacement c in
  let c := addRule (u "underline") (FTag (u "u")) underline_replacement c in
  addRule (u "blockquotes") (FTag (u "blockquote")) blockquotes_replacement c.

(** The options [init] passes to the service. *)
Definition initOptions : Options :=
  MkOptions (VStr (u "atx")) (VStr (u "fenced")) (VStr (u "_"))
    (VStr (u "**")) (VStr (u "inlineLink")) (VStr NL) (VStr (u "---")).

(** [init]: the service with its default rules, then the custom ones. *)
Definition init : completion Service :=
  match TurndownService.new initOptions with
  | Normal converter => Normal (initCustomRules converter)
  | Throw e => Throw e
  end.

(** The converter a [MarkdownConverter] holds. *)
Definition converter : Service :=
  initCustomRules
    (initDefaultRules (defaults initOptions)
       (MkService (defaults initOptions) [])).

(** *** [convert] and the sanitizer *)

(** The rest of the host: the fragment parser behind
    [tempDiv.innerHTML = html], the clock ([new Date().toISOString()]),
    and the floating-point rendering
    [(a / b * 100).toFixed(2)] of two lengths. *)
Variable parseFragment : str -> list Node.
Variable now : str.
Variable percent2 : nat -> nat -> str.

Fixpoint mapText (f : str -> str) (n : Node) : Node :=
  match n with
  | Text s => Text (f s)
  | Comment _ => n
  | Element tag a cs => Element tag a (List.map (mapText f) cs)
  end.

(** [p:empty, div:empty] with [!element.hasChildNodes()], on the list the
    query returned before any removal. *)
Definition isEmptyBlock (n : Node) : bool :=
  hasTag [u "p"; u "div"] n
  && match childNodes n with [] => true | _ => false end.

Fixpoint removeEmptyBlocks (n : Node) : Node :=
  match n with
  | Element tag a cs =>
      Element tag a
        ((fix keep (l : list Node) : list Node :=
            match l with
            | [] => []
            | c :: r =>
                if isEmptyBlock c then keep r
                else removeEmptyBlocks c :: keep r
            end) cs)
  | _ => n
  end.

(** [/\u00A0/g] *)
Definition reNbsp : regex := lit NBSP.

(** [preProcessHtml]: the children of [tempDiv] whose [innerHTML] the
    source returns. *)
Definition preProcessHtml (html : str) : list Node :=
  let tempDiv := Element (u "div") [] (parseFragment html) in
  let tempDiv := removeAll [u "script"; u "style"; u "noscript"] tempDiv in
  let tempDiv := mapText (replaceAll false reNbsp (constant [SP])) tempDiv in
  let tempDiv := removeEmptyBlocks tempDiv in
  childNodes tempDiv.

Inductive ConsoleEvent : Type :=
| ConsoleLog (msg : str)
| ConsoleError (msg : str) (e : JSError).

(** A plain object: its properties in insertion order.  Properties are
    read by key; the order in which the host enumerates integer-like
    keys is not part of the model. *)
Definition Object := list (str * JSValue).

Fixpoint setProp (k : str) (v : JSValue) (o : Object) : Object :=
  match o with
  | [] => [(k, v)]
  | (k', v') :: r =>
      if str_eqb k' k then (k, v) :: r else (k', v') :: setProp k v r
  end.

Record ConversionResult : Type := MkResult {
  markdown : str;
  metadata : Object
}.

Definition failurePrefix : str := [36716; 25442; 22833; 36133; 58; 32].

Definition invalidInput : JSError :=
  MkError (u "Error") (u "Invalid HTML input").

(** [catch (error)]: log, and throw the wrapped error. *)
Definition rethrow (error : JSError) : completion ConversionResult :=
  Throw (MkError (u "Error") (failurePrefix ++ errMessage error)).

(** [convert(html, metadata)]: how the returned promise settles, and
    what was written to the console. *)
Definition convert (fuel : nat) (html : JSValue) (meta : Object)
  : option (completion ConversionResult * list ConsoleEvent) :=
  let console := [ConsoleLog (u "Starting HTML to Markdown conversion...")] in
  if negb (truthy html) || negb (isString html) then
    Some (rethrow invalidInput,
          console ++ [ConsoleError (u "Markdown conversion failed:") invalidInput])
  else
    let html := toJSString html in
    let processedHtml := preProcessHtml html in
    md <- turndown fuel converter (reparse processedHtml) ;;
    let md := postProcess md in
    let originalLength := List.length html in
    let markdownLength := List.length md in
    let meta := setProp (u "convertedAt") (VStr now) meta in
    let meta := setProp (u "originalLength")
                  (VNum (Z.of_nat originalLength)) meta in
    let meta := setProp (u "markdownLength")
                  (VNum (Z.of_nat markdownLength)) meta in
    let meta := setProp (u "compressionRatio")
                  (VStr (percent2 markdownLength originalLength ++ u "%"))
                  meta in
    Some (Normal (MkResult md meta),
          console ++ [ConsoleLog (u "Conversion completed successfully")]).

(** What [convert] does on an input it refuses: the promise is rejected
    with the wrapped error, and the console holds the start line and the
    failure, nothing else. *)
Definition refused : option (completion ConversionResult * list ConsoleEvent) :=
  Some (Throw (MkError (u "Error") (failurePrefix ++ u "Invalid HTML input")),
        [ConsoleLog (u "Starting HTML to Markdown conversion...");
         ConsoleError (u "Markdown conversion failed:")
           (MkError (u "Error") (u "Invalid HTML input"))]).

End Host.
End MarkdownConverter.

(* ===================================================================== *)
(** ** What the list transforms emit, item by item *)
(* ===================================================================== *)

Module ListOutput.
Import TurndownService MarkdownConverter.

(** The lines [convertList] emits for the items whose converted texts
    are [outs], the first of them at position [index] of the item
    sequence: nothing for a text that trims to the empty string. *)
Definition emitFrom (isOrdered : bool) (index : nat) (outs : list str) : str :=
  List.concat
    (mapi_from index
       (fun index out =>
          let content := trim out in
          if isEmpty content then [] else formatItem isOrdered index content)
       outs).


(** [Array.from(node.children).filter(child => child.nodeName === 'LI')] *)
Definition directItems (node : Node) : list Node :=
  List.filter (fun child => str_eqb (nodeName child) (u "LI"))
    (elementChildren node).

Definition isBlank (out : str) : bool := isEmpty (trim out).

End ListOutput.

(* ===================================================================== *)
(** ** The table and code-block text, said directly *)
(* ===================================================================== *)

Module Direct.

(** Every pipe becomes backslash, pipe; the rest is unchanged. *)
Definition escapePipes (s : str) : str :=
  flat_map (fun c => if c =? PIPE then [BACKSLASH; PIPE] else [c]) s.

(** What is left of [s] after the prefix [p], if [s] starts with it. *)
Fixpoint stripPrefix (p s : str) : option str :=
  match p, s with
  | [], _ => Some s
  | x :: p', y :: s' => if x =? y then stripPrefix p' s' else None
  | _ :: _, [] => None
  end.

Fixpoint takeWhile (f : N -> bool) (s : str) : str :=
  match s with
  | c :: r => if f c then c :: takeWhile f r else []
  | [] => []
  end.

Fixpoint dropWhile (f : N -> bool) (s : str) : str :=
  match s with
  | c :: r => if f c then dropWhile f r else s
  | [] => []
  end.



(** The code units passed by the matcher, once it has read [l] after
    having passed [b]: kept reversed. *)
Definition advance (l : str) (b : str) : str := rev l ++ b.

(** Where the first code unit satisfying [p] is. *)
Fixpoint findFirst (p : N -> bool) (s : str) : option (str * N * str) :=
  match s with
  | [] => None
  | c :: r =>
      if p c then Some ([], c, r)
      else match findFirst p r with
           | Some (l, x, r') => Some (c :: l, x, r')
           | None => None
           end
  end.

(** The lines of one row: the row itself, and the separator after the
    first row of a table with a header. *)
Definition rowLines (hasHeader : bool) (rowIndex : nat) (row : Node) : str :=
  let cells :=
    List.map (fun cell => escapePipes (trim (textContent cell)))
      (querySelectorAll [u "td"; u "th"] row) in
  MarkdownConverter.rowLine cells
  ++ (if Nat.eqb rowIndex 0 && hasHeader
      then MarkdownConverter.rowLine (List.map (fun _ => u "---") cells) else []).

(** The depth of a tree, and the text a walk without rules collects:
    the text nodes in document order, comments left out. *)
Fixpoint height (n : Node) : nat :=
  match n with
  | Element _ _ cs => S (fold_right (fun c m => Nat.max (height c) m) 0%nat cs)
  | _ => 0%nat
  end.

Fixpoint plainText (n : Node) : str :=
  match n with
  | Text s => s
  | Comment _ => []
  | Element _ _ cs => List.concat (List.map plainText cs)
  end.

End Direct.

(* ===================================================================== *)
(** ** Inputs of the examples *)
(* ===================================================================== *)

Module Examples.
Import TurndownService MarkdownConverter.

(** A host whose parser reads back what its serializer wrote: the
    [body] holds the children again. *)
Definition roundTrip (cs : list Node) : Node := Element (u "body") [] cs.

Definition el (tag : string) (cs : list Node) : Node := Element (u tag) [] cs.
Definition tx (s : string) : Node := Text (u s).

(** The converter of a [MarkdownConverter] on that host, and a bare
    [TurndownService] built with the same options. *)
Definition mc : Service := converter roundTrip.
Definition bare : Service :=
  initDefaultRules (defaults initOptions) (MkService (defaults initOptions) []).

(** ["a\n```b```"] *)
Definition fencedAfterText : str := u "a" ++ NL ++ u "```b```".

(** [<ol start="5"><li>x</li><li>y</li></ol>] *)
Definition olStart5 : Node :=
  Element (u "ol") [(u "start", u "5")] [el "li" [tx "x"]; el "li" [tx "y"]].

(** [<ol><li>x</li><li></li><li>y</li></ol>] *)
Definition olWithEmptyItem : Node :=
  el "ol" [el "li" [tx "x"]; el "li" []; el "li" [tx "y"]].

(** [<ol><li>a<ul><li>b</li></ul></li><li>c</li></ol>] *)
Definition innerItem : Node := el "li" [tx "b"].
Definition outerItem : Node := el "li" [tx "a"; el "ul" [innerItem]].
Definition lastItem : Node := el "li" [tx "c"].
Definition nestedList : Node := el "ol" [outerItem; lastItem].

(** [<table><tr><td>a|b</td></tr></table>] *)
Definition pipeTable : Node := el "table" [el "tr" [el "td" [tx "a|b"]]].



(** The rule [initCustomRules] registers for tables. *)
Definition tablesRule : Rule :=
  MkRule (u "tables") (FTag (u "table"))
    (fun _ _ _ node => Some (convertTable node)).

(** [<span>a<b>c</b><!--d--></span>]; no rule is registered for [span]. *)
Definition spanNode : Node := el "span" [tx "a"; el "b" [tx "c"]; Comment (u "d")].

(** [{ headingStyle: 'setext' }] *)
Definition setextOptions : Options :=
  MkOptions (VStr (u "setext")) VUndefined VUndefined VUndefined VUndefined
    VUndefined VUndefined.

End Examples.

(* ===================================================================== *)
(** ** Reading objects and trees *)
(* ===================================================================== *)


(** [getTextNodes(element)]: the text nodes under [element], in document
    order, as the tree walker with [SHOW_TEXT] lists them. *)
Definition getTextNodes (element : Node) : list Node :=
  filter isText (descendants element).

(** The tags the sanitizer removes. *)
Definition scriptTags : list str := [u "script"; u "style"; u "noscript"].

(** A fragment parser that gives the same nodes for every input: the
    paragraph [hi]. *)
Definition parsesToParagraph (_ : str) : list Node :=
  [Element (u "p") [] [Text (u "hi")]].

(** A clock and a ratio rendering that give the same strings always. *)
Definition fixedClock : str := u "2024-01-01T00:00:00.000Z".
Definition fixedPercent (_ _ : nat) : str := u "22.22".

(** The digit code unit of a number below ten. *)
Definition digitChar (k : nat) : N := 48 + N.of_nat k.

(** [<h3>] *)
Definition h3Node : Node := Element (u "h3") [] [Text (u "t")].

(** [<a>text</a>] *)
Definition bareAnchor : Node := Element (u "a") [] [Text (u "text")].

(** A string that is not empty and starts with something else than
    white space. *)
Definition startsSolid (s : str) : Prop :=
  match s with c :: _ => isSpace c = false | [] => False end.

(** One quoted line of the custom block quote rule. *)
Definition quoteLine (line : str) : str :=
  let trimmed := trim line in
  if isEmpty trimmed then u ">" else u "> " ++ trimmed.

(** A rule whose replacement calls the walker back on child nodes of
    its node only, if at all, and returns once those calls have. *)
Definition CallsBackOnChildren (rule : TurndownService.Rule) : Prop :=
  forall content parent node,
    (forall self1 self2 : TurndownService.Self,
        (forall c, In c (childNodes node) ->
                   self1 (Some node) c = self2 (Some node) c) ->
        TurndownService.replacement rule self1 content parent node
        = TurndownService.replacement rule self2 content parent node)
    /\ (forall self : TurndownService.Self,
           (forall c, In c (childNodes node) -> self (Some node) c <> None) ->
           TurndownService.replacement rule self content parent node <> None).

(** The rules of a service constructed with the options [o]. *)
Definition defaultRules (o : TurndownService.Options) : list TurndownService.Rule :=
  TurndownService.rules
    (TurndownService.initDefaultRules o (TurndownService.MkService o [])).

(** [<ul><li>a<ul><li>b</li></ul></li></ul>] *)
Definition nestedBullets : Node :=
  Element (u "ul") []
    [Element (u "li") []
       [Text (u "a");
        Element (u "ul") [] [Element (u "li") [] [Text (u "b")]]]].

(** The tags of the list elements, and the filter of the list rules. *)
Definition listTags : list str := [u "ul"; u "ol"].
Definition listsFilter : TurndownService.Filter :=
  TurndownService.FList
    [TurndownService.FTag (u "ul"); TurndownService.FTag (u "ol")].

(** An element whose tag is in lower case, as the HTML parser names
    elements; a tree of such elements. *)
Definition lowerTag (d : Node) : Prop :=
  match d with Element tag _ _ => toLowerCase tag = tag | _ => True end.

Definition LowerTagged (n : Node) : Prop :=
  forall d, In d (n :: descendants n) -> lowerTag d.

(** A tree in lower-case tags without any list element. *)
Definition Plain (n : Node) : Prop :=
  forall d, In d (n :: descendants n) ->
            lowerTag d /\ hasTag listTags d = false.

(** What the walk of a converter needs of the host's round trip through
    [innerHTML] and [DOMParser]: the parsed [body] has lower-case tags
    and no list element when the serialized nodes had lower-case tags
    and no list element, and it is no deeper than a [div] around those
    nodes. *)
Record FaithfulRoundTrip (reparse : list Node -> Node) : Prop := {
  roundTrip_plain :
    forall cs,
      LowerTagged (Element (u "div") [] cs) ->
      querySelectorAll listTags (Element (u "div") [] cs) = [] ->
      Plain (reparse cs);
  roundTrip_height :
    forall cs,
      (Direct.height (reparse cs)
       <= Direct.height (Element (u "div") [] cs))%nat
}.

(** The replacement of the custom list rule. *)
Definition improvedLists_replacement (reparse : list Node -> Node)
  : TurndownService.Replacement :=
  fun self _ _ node => MarkdownConverter.convertList reparse self node.

(* ===================================================================== *)
(** ** ContentSelector: the caller of [convert] (in-page-notification.js) *)
(* ===================================================================== *)

Module ContentSelector.
Import MarkdownConverter.

Inductive NoticeKind : Type := Info | Success | Failure.

(** What the page sees and what the console gets, in order.  Further
    arguments of a console call are not recorded. *)
Inductive Event : Type :=
| Notify (kind : NoticeKind) (msg : str)
| Console (e : ConsoleEvent).

Record SelectedData : Type := MkSelected {
  html : JSValue;
  metadata : Object
}.

Definition converting : str :=
  [27491; 22312; 36716; 25442; 20026] ++ u "Markdown" ++ [26684; 24335]
    ++ u "...".
Definition converted : str := u "Markdown" ++ [36716; 25442; 23436; 25104].
Definition wrappedFailure : str := u "Markdown" ++ failurePrefix.

Definition notAvailable : JSError :=
  MkError (u "Error") (u "TurndownService is not available").

Section Host.
Variable reparse : list Node -> Node.
Variable parseFragment : str -> list Node.
Variable now : str.
Variable percent2 : nat -> nat -> str.

(** [available]: whether [TurndownService] is defined, which the
    constructor of [MarkdownConverter] checks.  [hasNotifier]: whether
    [window.inPageNotification] is set.  The promise of [convert] is
    returned without [await]: the [try] block has ended when it settles,
    so only the constructor can reach the [catch]. *)
Definition handleMarkdownConversion (available hasNotifier : bool)
  (fuel : nat) (selectedData : SelectedData)
  : option (completion ConversionResult * list Event) :=
  let notice kind msg := if hasNotifier then [Notify kind msg] else [] in
  if available then
    r <- convert reparse parseFragment now percent2 fuel
           (html selectedData) (metadata selectedData) ;;
    Some (fst r,
          notice Info converting
            ++ [Console (ConsoleLog (u "MarkdownConverter initialized"))]
            ++ List.map Console (snd r)
            ++ notice Success converted
            ++ [Console (ConsoleLog (u "Markdown conversion completed:"))])
  else
    Some (Throw (MkError (u "Error")
                   (wrappedFailure ++ errMessage notAvailable)),
          notice Info converting
            ++ [Console (ConsoleError (u "Markdown conversion failed:")
                           notAvailable)]
            ++ notice Failure (failurePrefix ++ errMessage notAvailable)).

End Host.
End ContentSelector.

(* ===================================================================== *)
(** ** [validateMarkdown] (markdown-converter.js) *)
(* ===================================================================== *)

Module Validation.
Import RegExp.

(** [input.match(/r/g)]: every match, found as [replace] finds them. *)
Fixpoint matchAllLoop (fuel : nat) (multiline : bool) (r : regex)
  (s : mstate) : list str :=
  match exec multiline r s with
  | None => []
  | Some (s0, s1) =>
      let matched := between s0 s1 in
      matched ::
      match fuel with
      | O => []
      | S fuel' =>
          if isEmpty matched then
            match after s1 with
            | [] => []
            | c :: rest =>
                matchAllLoop fuel' multiline r (MState (c :: before s1) rest [])
            end
          else matchAllLoop fuel' multiline r s1
      end
  end.

(** [(input.match(/r/g) || []).length] *)
Definition countMatches (multiline : bool) (r : regex) (input : str) : nat :=
  List.length (matchAllLoop (S (List.length input)) multiline r (start input)).

(** [input.match(/r/)] as a condition. *)
Definition test (r : regex) (input : str) : bool :=
  match matchFirst false r input with Some _ => true | None => false end.

(** [input.includes(sub)] *)
Fixpoint includes (sub input : str) : bool :=
  match Direct.stripPrefix sub input with
  | Some _ => true
  | None => match input with [] => false | _ :: r => includes sub r end
  end.

Definition LBRACKET : N := 91.
Definition RBRACKET : N := 93.
Definition LPAREN : N := 40.
Definition RPAREN : N := 41.
Definition BANG : N := 33.

(** [/^#{1,6}\s/gm] *)
Definition reHeaders : regex :=
  Seq Bol (Seq (fromTo 1 6 (lit 35)) (Chr isSpace)).

(** [/\[.*?\]\(.*?\)/g] *)
Definition reLinks : regex :=
  Seq (lit LBRACKET)
    (Seq (lazyStar dot)
       (Seq (lit RBRACKET)
          (Seq (lit LPAREN) (Seq (lazyStar dot) (lit RPAREN))))).

(** [/!\[.*?\]\(.*?\)/g] *)
Definition reImages : regex := Seq (lit BANG) reLinks.

(** [/```[\s\S]*?```/g] *)
Definition reCodeBlocks : regex :=
  Seq (lits (u "```")) (Seq (lazyStar anyChar) (lits (u "```"))).

(** [/\|.*\|/gm] *)
Definition reTables : regex := Seq (lit PIPE) (Seq (star dot) (lit PIPE)).

(** [/\[.*?\]\(\s*\)/] *)
Definition reEmptyLink : regex :=
  Seq (lit LBRACKET)
    (Seq (lazyStar dot)
       (Seq (lit RBRACKET)
          (Seq (lit LPAREN) (Seq (star (Chr isSpace)) (lit RPAREN))))).

(** [/!\[.*?\]\(\s*\)/] *)
Definition reEmptyImage : regex := Seq (lit BANG) reEmptyLink.

Definition found : str := [21457; 29616].
Definition undefinedWarning : str :=
  found ++ [26410; 23450; 20041; 30340; 20869; 23481].
Definition emptyLinkWarning : str := found ++ [31354; 38142; 25509].
Definition emptyImageWarning : str :=
  found ++ [31354; 22270; 29255; 38142; 25509].

Record Stats : Type := MkStats {
  lines : nat;
  headers : nat;
  links : nat;
  images : nat;
  codeBlocks : nat;
  tables : nat
}.

Record Report : Type := MkReport {
  isValid : bool;
  warnings : list str;
  stats : Stats
}.

(** [warnings.push(w)] under a condition. *)
Definition pushIf (cond : bool) (w : str) (ws : list str) : list str :=
  if cond then ws ++ [w] else ws.

Definition validateMarkdown (markdown : str) : Report :=
  let stats :=
    MkStats (List.length (split LF markdown))
      (countMatches true reHeaders markdown)
      (countMatches false reLinks markdown)
      (countMatches false reImages markdown)
      (countMatches false reCodeBlocks markdown)
      (countMatches true reTables markdown) in
  let warnings := [] in
  let warnings :=
    pushIf (includes (u "undefined") markdown) undefinedWarning warnings in
  let warnings := pushIf (test reEmptyLink markdown) emptyLinkWarning warnings in
  let warnings :=
    pushIf (test reEmptyImage markdown) emptyImageWarning warnings in
  MkReport true warnings stats.

End Validation.

(* ===================================================================== *)
(** ** FileHandler: the name of the saved file (background script) *)
(* ===================================================================== *)

Module FileHandler.
Import RegExp.

(** The code units of the character class of the first [replace]: less
    than, greater than, colon, double quote, slash, backslash, pipe,
    question mark and asterisk. *)
Definition unsafeChars : str := [60; 62; 58; 34; 47; 92; 124; 63; 42].
Definition unsafeChar (c : N) : bool := existsb (N.eqb c) unsafeChars.

(** The three patterns of [generateFileName]: the class above, [/\s+/g]
    and [/[T:]/g]. *)
Definition reUnsafe : regex := oneOf unsafeChars.
Definition reSpaces : regex := plus (Chr isSpace).
Definition reTimeSep : regex := oneOf [84; 58].

(** [generateFileName(metadata)], from [metadata.title], the ISO string
    of the clock and [Date.now()].  A title that is truthy and not a
    string has no [replace]: the call throws and the [catch] gives the
    fallback name. *)
Definition generateFileName (isoNow : str) (dateNow : nat) (title : JSValue)
  : str :=
  let timestamp :=
    replaceAll false reTimeSep (constant (u "-")) (firstn 19 isoNow) in
  match jsOr title (VStr (u "WebtoMD")) with
  | VStr pageTitle =>
      let pageTitle :=
        firstn 50
          (replaceAll false reSpaces (constant (u "_"))
             (replaceAll false reUnsafe (constant (u "_")) pageTitle)) in
      let pageTitle :=
        if isEmpty pageTitle || str_eqb pageTitle (u "_")
        then u "WebtoMD_Export" else pageTitle in
      pageTitle ++ u "_" ++ timestamp ++ u ".md"
  | _ => u "WebtoMD_Export_" ++ decimal dateNow ++ u ".md"
  end.

End FileHandler.

(** Every run of code units in the class [p] turned into [rep]:
    [inRun] says that the code unit before was in the class. *)
Fixpoint squeeze (p : N -> bool) (rep : str) (inRun : bool) (s : str) : str :=
  match s with
  | [] => []
  | c :: r =>
      if p c then (if inRun then [] else rep) ++ squeeze p rep true r
      else c :: squeeze p rep false r
  end.

(** The code units of an ISO date string. *)
Definition isoChar (c : N) : bool := isDigit c || existsb (N.eqb c) (u "-T:.Z").

(** A code unit that is neither replaced by [generateFileName] nor
    white space. *)
Definition safeChar (c : N) : Prop :=
  FileHandler.unsafeChar c = false /\ isSpace c = false.

(** A pattern every match of which takes at least one code unit of the
    class [P]. *)
Inductive Needs (P : N -> bool) : RegExp.regex -> Prop :=
| Needs_Chr p :
    (forall c, p c = true -> P c = true) -> Needs P (RegExp.Chr p)
| Needs_SeqL a b : Needs P a -> Needs P (RegExp.Seq a b)
| Needs_SeqR a b : Needs P b -> Needs P (RegExp.Seq a b)
| Needs_Alt a b : Needs P a -> Needs P b -> Needs P (RegExp.Alt a b)
| Needs_Group i r : Needs P r -> Needs P (RegExp.Group i r)
| Needs_Rep greedy lo hi r :
    (1 <= lo)%nat -> RegExp.isZero hi = false -> Needs P r ->
    Needs P (RegExp.Rep greedy lo hi r).

(** A matcher state with no code unit of the class [P] ahead. *)
Definition Dead (P : N -> bool) (s : RegExp.mstate) : Prop :=
  forall c, In c (RegExp.after s) -> P c = false.

(** White space, the backtick and the greater-than sign: what the
    patterns of the normalizer look for. *)
Definition normalizerKey (c : N) : bool :=
  isSpace c || (c =? 96) || (c =? 62).


(* ===================================================================== *)
(** ** The code-block tag and the list numbers, as the specification
       words them *)
(* ===================================================================== *)











(* ===================================================================== *)
(** ** Properties *)
(* ===================================================================== *)

Lemma str_eqb_eq (a b : str) : str_eqb a b = true <-> a = b.
Proof.
  unfold str_eqb. destruct (list_eq_dec N.eq_dec a b); split; congruence.
Qed.


(* --------------------------------------------------------------------- *)
(** *** The rule registry *)
(* --------------------------------------------------------------------- *)

Section Registry.
Import TurndownService.

Lemma findMatchingRule_first (rs : list Rule) parent node rule :
  findMatchingRule rs parent node = Some rule ->
  exists before after,
    rs = before ++ rule :: after
    /\ matchesFilter parent node (filter rule) = true
    /\ Forall (fun r => matchesFilter parent node (filter r) = false) before.
Proof.
  induction rs as [|r rs IH]; simpl; intros H; [discriminate|].
  destruct (matchesFilter parent node (filter r)) eqn:E.
  - injection H as <-. exists [], rs. repeat split; auto.
  - destruct (IH H) as (b & a & -> & Hm & Hb).
    exists (r :: b), a. repeat split; auto.
Qed.

Lemma findMatchingRule_none (rs : list Rule) parent node :
  findMatchingRule rs parent node = None <->
  Forall (fun r => matchesFilter parent node (filter r) = false) rs.
Proof.
  induction rs as [|r rs IH]; simpl.
  - split; auto.
  - destruct (matchesFilter parent node (filter r)) eqn:E; split; intros H.
    + discriminate.
    + inversion H; congruence.
    + constructor; [assumption | now apply IH].
    + inversion H; now apply IH.
Qed.

(** C2.  [addRule] puts the new rule at the head of the list;
    [findMatchingRule] returns the first rule of the list whose filter
    matches, or none when no filter matches; the walker applies the
    replacement of that one rule; and a rule added later wins over every
    rule already registered on each node its filter matches, while the
    lookup for the other nodes is unchanged.  The default [list] rule
    and the custom [improvedLists] rule share a filter: the second,
    added later, is the one found for an [ol]. *)
Theorem addRule_prepends_and_first_match_wins :
  (forall nm f r this,
      rules (addRule nm f r this) = MkRule nm f r :: rules this)
  /\ (forall rs parent node rule,
         findMatchingRule rs parent node = Some rule ->
         exists before after,
           rs = before ++ rule :: after
           /\ matchesFilter parent node (filter rule) = true
           /\ Forall (fun r => matchesFilter parent node (filter r) = false)
                before)
  /\ (forall rs parent node,
         findMatchingRule rs parent node = None <->
         Forall (fun r => matchesFilter parent node (filter r) = false) rs)
  /\ (forall fuel rs parent tag a cs rule,
         findMatchingRule rs parent (Element tag a cs) = Some rule ->
         processNode (S fuel) rs parent (Element tag a cs) =
         (content <- processChildren fuel rs (Element tag a cs) ;;
          replacement rule (processNode fuel rs) content parent
            (Element tag a cs)))
  /\ (forall nm f r this parent node,
         matchesFilter parent node f = true ->
         findMatchingRule (rules (addRule nm f r this)) parent node
         = Some (MkRule nm f r))
  /\ (forall nm f r this parent node,
         matchesFilter parent node f = false ->
         findMatchingRule (rules (addRule nm f r this)) parent node
         = findMatchingRule (rules this) parent node)
  /\ option_map name
       (findMatchingRule (rules Examples.bare) None Examples.olStart5)
     = Some (u "list")
  /\ option_map name
       (findMatchingRule (rules Examples.mc) None Examples.olStart5)
     = Some (u "improvedLists").
Proof.
  split; [reflexivity|].
  split; [exact findMatchingRule_first|].
  split; [exact findMatchingRule_none|].
  split.
  { intros fuel rs parent tag a cs rule H.
    cbn [processNode]. rewrite H. reflexivity. }
  split; [|split; [|split; reflexivity]];
    intros nm f r this parent node H; simpl; rewrite H; reflexivity.
Qed.

End Registry.

(** The custom [tables] rule, registered after the defaults, is the one
    found for a [table], and the one the walker applies; on a [span] the
    lookup is what it was before the rule was added. *)
Lemma addRule_prepends_and_first_match_wins_witness :
  (exists before after,
      TurndownService.rules Examples.mc
      = before ++ Examples.tablesRule :: after
      /\ TurndownService.matchesFilter None Examples.pipeTable
           (TurndownService.filter Examples.tablesRule) = true
      /\ Forall
           (fun r =>
              TurndownService.matchesFilter None Examples.pipeTable
                (TurndownService.filter r) = false)
           before)
  /\ TurndownService.processNode 4 (TurndownService.rules Examples.mc) None
       Examples.pipeTable
     = (content <- TurndownService.processChildren 3
                     (TurndownService.rules Examples.mc) Examples.pipeTable ;;
        TurndownService.replacement Examples.tablesRule
          (TurndownService.processNode 3 (TurndownService.rules Examples.mc))
          content None Examples.pipeTable)
  /\ TurndownService.findMatchingRule
       (TurndownService.rules
          (TurndownService.addRule (u "tables")
             (TurndownService.FTag (u "table"))
             (fun _ _ _ node => Some (MarkdownConverter.convertTable node))
             Examples.bare))
       None Examples.pipeTable
     = Some Examples.tablesRule
  /\ TurndownService.findMatchingRule
       (TurndownService.rules
          (TurndownService.addRule (u "tables")
             (TurndownService.FTag (u "table"))
             (fun _ _ _ node => Some (MarkdownConverter.convertTable node))
             Examples.bare))
       None Examples.spanNode
     = TurndownService.findMatchingRule (TurndownService.rules Examples.bare)
         None Examples.spanNode.
Proof.
  pose proof addRule_prepends_and_first_match_wins
    as (_ & Hfirst & _ & Hfires & Hwins & Hkeeps & _).
  split; [|split; [|split]].
  - apply Hfirst. reflexivity.
  - apply (Hfires 3%nat (TurndownService.rules Examples.mc) None (u "table") []
             [Examples.el "tr" [Examples.el "td" [Examples.tx "a|b"]]]).
    reflexivity.
  - apply (Hwins (u "tables")). reflexivity.
  - apply (Hkeeps (u "tables")). reflexivity.
Defined.

(* --------------------------------------------------------------------- *)
(** *** The tree walker *)
(* --------------------------------------------------------------------- *)

Section Walker.
Import TurndownService.

Lemma concatM_outputs (process : Node -> option str) cs outs :
  Forall2 (fun c o => process c = Some o) cs outs ->
  concatM process cs = Some (List.concat outs).
Proof.
  induction 1 as [|c o cs outs Hc _ IH]; simpl; [reflexivity|].
  rewrite Hc, IH. reflexivity.
Qed.

Lemma concatM_fails (process : Node -> option str) cs :
  Exists (fun c => process c = None) cs -> concatM process cs = None.
Proof.
  induction 1 as [c cs Hc | c cs _ IH]; simpl.
  - rewrite Hc. reflexivity.
  - rewrite IH. destruct (process c); reflexivity.
Qed.

(** C5.  A text node gives its data as it is, a comment gives the empty
    string, and an element no rule matches gives the outputs of its
    child nodes, concatenated in document order with nothing added. *)
Theorem processNode_passthrough :
  (forall fuel rs parent s,
      processNode (S fuel) rs parent (Text s) = Some s)
  /\ (forall fuel rs parent s,
         processNode (S fuel) rs parent (Comment s) = Some [])
  /\ (forall fuel rs parent tag a cs outs,
         findMatchingRule rs parent (Element tag a cs) = None ->
         Forall2
           (fun c o => processNode fuel rs (Some (Element tag a cs)) c = Some o)
           cs outs ->
         processNode (S fuel) rs parent (Element tag a cs)
         = Some (List.concat outs)).
Proof.
  repeat split; try reflexivity.
  intros fuel rs parent tag a cs outs Hnone Hcs.
  cbn [processNode]. rewrite Hnone.
  now apply concatM_outputs.
Qed.

Lemma Node_forall_ind (P : Node -> Prop) :
  (forall s, P (Text s)) ->
  (forall s, P (Comment s)) ->
  (forall tag a cs, Forall P cs -> P (Element tag a cs)) ->
  forall n, P n.
Proof.
  intros Ht Hc He. fix IH 1. intros [s|s|tag a cs]; [apply Ht | apply Hc |].
  apply He. induction cs as [|c cs IHcs]; constructor; [apply IH | exact IHcs].
Qed.

(** With no rule registered the walk of a tree ends, within a depth of
    one more than the height of the tree, on the text of the tree. *)
Lemma processNode_no_rules_total n :
  forall fuel parent,
    (Direct.height n < fuel)%nat ->
    processNode fuel [] parent n = Some (Direct.plainText n).
Proof.
  induction n as [s|s|tag a cs IH] using Node_forall_ind;
    intros fuel parent Hf; (destruct fuel as [|fuel]; [lia|]);
    try reflexivity.
  cbn [processNode findMatchingRule Direct.plainText].
  generalize (Some (Element tag a cs)). intros up.
  cbn [Direct.height] in Hf. apply PeanoNat.lt_S_n in Hf.
  induction IH as [|c cs Hc _ IHcs]; [reflexivity|].
  cbn [fold_right] in Hf. cbn [concatM List.map List.concat].
  rewrite Hc by lia. rewrite IHcs by lia. reflexivity.
Qed.

End Walker.

Lemma processNode_passthrough_witness :
  TurndownService.processNode 3 (TurndownService.rules Examples.mc) None
    Examples.spanNode
  = Some (List.concat [u "a"; u "**c**"; []]).
Proof.
  apply (proj2 (proj2 processNode_passthrough)).
  - reflexivity.
  - repeat constructor.
Defined.

(* --------------------------------------------------------------------- *)
(** *** Construction and input validation *)
(* --------------------------------------------------------------------- *)

Section Construction.
Import TurndownService.

(** C4, as the code has it.  The constructor checks nothing and never
    throws: each option is kept as given when it is truthy, whatever its
    value, and takes its default otherwise. *)
Theorem new_keeps_any_truthy_option :
  forall given : Options,
    exists this,
      new given = Normal this
      /\ headingStyle (options this)
         = (if truthy (headingStyle given) then headingStyle given
            else VStr (u "atx"))
      /\ codeBlockStyle (options this)
         = (if truthy (codeBlockStyle given) then codeBlockStyle given
            else VStr (u "fenced"))
      /\ emDelimiter (options this)
         = (if truthy (emDelimiter given) then emDelimiter given
            else VStr (u "_"))
      /\ strongDelimiter (options this)
         = (if truthy (strongDelimiter given) then strongDelimiter given
            else VStr (u "**"))
      /\ linkStyle (options this)
         = (if truthy (linkStyle given) then linkStyle given
            else VStr (u "inlineLink"))
      /\ br (options this)
         = (if truthy (br given) then br given else VStr [LF])
      /\ hr (options this)
         = (if truthy (hr given) then hr given else VStr (u "---")).
Proof.
  intros given. eexists. split; [reflexivity|].
  repeat split.
Qed.

(** C4 as stated fails: [headingStyle: 'setext'] is not
    a supported value, and the constructor returns normally with a
    service that holds it. *)
Lemma new_accepts_setext :
  supported Examples.setextOptions = false
  /\ (exists this,
         new Examples.setextOptions = Normal this
         /\ headingStyle (options this) = VStr (u "setext"))
  /\ ~ (forall given : Options,
           supported given = false -> exists e, new given = Throw e).
Proof.
  split; [reflexivity|]. split.
  - eexists. split; reflexivity.
  - intros H. destruct (H Examples.setextOptions) as [e He];
      [reflexivity | discriminate].
Qed.

End Construction.

Section InputValidation.
Import TurndownService MarkdownConverter.

Variable reparse : list Node -> Node.
Variable parseFragment : str -> list Node.
Variable now : str.
Variable percent2 : nat -> nat -> str.

(** C9.  Whatever the host and the depth allowed, [convert] refuses
    [undefined], [null], a boolean, a number, an object and the empty
    string: it throws before the sanitizer, the walker or the normalizer
    is reached (the outcome does not depend on them) and returns no
    result. *)
Theorem convert_refuses_non_string_and_empty :
  forall fuel meta,
    convert reparse parseFragment now percent2 fuel VUndefined meta = refused
    /\ convert reparse parseFragment now percent2 fuel VNull meta = refused
    /\ (forall b, convert reparse parseFragment now percent2 fuel (VBool b) meta = refused)
    /\ (forall n, convert reparse parseFragment now percent2 fuel (VNum n) meta = refused)
    /\ convert reparse parseFragment now percent2 fuel VObject meta = refused
    /\ convert reparse parseFragment now percent2 fuel (VStr []) meta = refused.
Proof.
  intros fuel meta. unfold convert, refused, rethrow, invalidInput.
  repeat split; try reflexivity.
  - intros b. destruct b; reflexivity.
  - intros n. destruct (truthy (VNum n)); reflexivity.
Qed.

(** On a non-empty string the promise is fulfilled as soon as the walk
    of the sanitized tree returns: the result holds the normalized
    Markdown and the four metadata entries. *)
Lemma convert_accepts_non_empty_string fuel c html meta md :
  turndown fuel (converter reparse)
    (reparse (preProcessHtml parseFragment (c :: html))) = Some md ->
  exists metadata,
    convert reparse parseFragment now percent2 fuel (VStr (c :: html)) meta
    = Some (Normal (MkResult (postProcess md) metadata),
            [ConsoleLog (u "Starting HTML to Markdown conversion...");
             ConsoleLog (u "Conversion completed successfully")]).
Proof.
  intros H. unfold convert. cbn [truthy isString isEmpty negb orb toJSString].
  rewrite H. eexists. reflexivity.
Qed.

End InputValidation.

(* --------------------------------------------------------------------- *)
(** *** The normalizer *)
(* --------------------------------------------------------------------- *)

(** C1 fails on the code.  On the text [a], a newline and a fenced block,
    one pass gives [a], a blank line, the block; a second pass gives two
    blank lines before the block.  The fence step adds its newlines
    whether or not a blank line is there: a block that already follows a
    blank line leaves one pass with three newlines before it, a run the
    first step of the same function is there to collapse. *)
Theorem postProcess_twice_differs :
  MarkdownConverter.postProcess Examples.fencedAfterText
  = u "a" ++ [LF; LF] ++ u "```b```"
  /\ MarkdownConverter.postProcess
       (MarkdownConverter.postProcess Examples.fencedAfterText)
     = u "a" ++ [LF; LF; LF] ++ u "```b```"
  /\ MarkdownConverter.postProcess
       (MarkdownConverter.postProcess Examples.fencedAfterText)
     <> MarkdownConverter.postProcess Examples.fencedAfterText
  /\ MarkdownConverter.postProcess (u "a" ++ [LF; LF] ++ u "```b```")
     = u "a" ++ [LF; LF; LF] ++ u "```b```".
Proof.
  assert (H1 : MarkdownConverter.postProcess Examples.fencedAfterText
               = u "a" ++ [LF; LF] ++ u "```b```") by (vm_compute; reflexivity).
  assert (H2 : MarkdownConverter.postProcess
                 (MarkdownConverter.postProcess Examples.fencedAfterText)
               = u "a" ++ [LF; LF; LF] ++ u "```b```")
    by (vm_compute; reflexivity).
  split; [exact H1|]. split; [exact H2|]. split.
  - rewrite H2, H1. vm_compute. discriminate.
  - vm_compute. reflexivity.
Qed.

(* --------------------------------------------------------------------- *)
(** *** Lists *)
(* --------------------------------------------------------------------- *)

Section Lists.
Import TurndownService MarkdownConverter ListOutput.

Variable reparse : list Node -> Node.
Variable self : Self.

Lemma forEachM_emitFrom (isOrdered : bool) items outs :
  Forall2 (fun item out => getTextContent reparse self item = Some out)
    items outs ->
  forall index acc,
    forEachM
      (fun index item markdown =>
         out <- getTextContent reparse self item ;;
         let content := trim out in
         Some (if isEmpty content then markdown
               else markdown ++ formatItem isOrdered index content))
      index items acc
    = Some (acc ++ emitFrom isOrdered index outs).
Proof.
  induction 1 as [|item out items outs Hout _ IH]; intros index acc.
  - simpl. unfold emitFrom. simpl. now rewrite app_nil_r.
  - cbn [forEachM]. rewrite Hout. cbv zeta. rewrite IH.
    unfold emitFrom. cbn [mapi_from List.concat].
    destruct (isEmpty (trim out)); simpl; now rewrite <- ?app_assoc.
Qed.


Lemma emitFrom_app isOrdered index outs1 outs2 :
  emitFrom isOrdered index (outs1 ++ outs2)
  = emitFrom isOrdered index outs1
    ++ emitFrom isOrdered (List.length outs1 + index) outs2.
Proof.
  revert index. induction outs1 as [|o outs1 IH]; intros index.
  - reflexivity.
  - unfold emitFrom in *. cbn [mapi_from List.concat app List.length].
    rewrite IH. rewrite <- app_assoc.
    replace (List.length outs1 + S index)%nat
      with (S (List.length outs1) + index)%nat by lia.
    reflexivity.
Qed.

Lemma split_head sep s : exists l ls, split sep s = l :: ls.
Proof.
  induction s as [|c s (l & ls & E)]; simpl.
  - eauto.
  - destruct (c =? sep); [eauto|]. rewrite E. eauto.
Qed.


Lemma convertList_emits listNode outs :
  querySelectorAll [u "li"] listNode <> [] ->
  Forall2 (fun item out => getTextContent reparse self item = Some out)
    (querySelectorAll [u "li"] listNode) outs ->
  convertList reparse self listNode
  = Some (NL2
            ++ emitFrom (str_eqb (toLowerCase (nodeName listNode)) (u "ol"))
                 0 outs
            ++ NL).
Proof.
  intros Hne H. unfold convertList.
  destruct (querySelectorAll [u "li"] listNode) as [|item rest] eqn:E;
    [congruence|].
  rewrite (forEachM_emitFrom _ H). now rewrite <- app_assoc.
Qed.

End Lists.

Section ListNumbering.
Import TurndownService MarkdownConverter ListOutput.

Variable reparse : list Node -> Node.
Variable self : Self.




(** C10.  An item whose converted text trims to the empty string emits
    nothing, and the items after it keep the numbers of their positions
    in the whole item sequence: after [before] items and the blank one,
    the next item is at position [length before + 1].  The items [x],
    empty, [y] of an ordered list come out as [1. x] and [3. y]. *)
Theorem blank_item_skipped_but_counted :
  (forall listNode before item after outs1 out outs2,
      querySelectorAll [u "li"] listNode = before ++ item :: after ->
      Forall2 (fun item out => getTextContent reparse self item = Some out)
        before outs1 ->
      getTextContent reparse self item = Some out ->
      isBlank out = true ->
      Forall2 (fun item out => getTextContent reparse self item = Some out)
        after outs2 ->
      let isOrdered := str_eqb (toLowerCase (nodeName listNode)) (u "ol") in
      convertList reparse self listNode
      = Some (NL2
                ++ emitFrom isOrdered 0 outs1
                ++ emitFrom isOrdered (S (List.length before)) outs2
                ++ NL))
  /\ (forall index out outs,
         isBlank out = false ->
         emitFrom true index (out :: outs)
         = formatItem true index (trim out) ++ emitFrom true (S index) outs)
  /\ turndown 20 Examples.mc (Examples.roundTrip [Examples.olWithEmptyItem])
     = Some (u "1. x" ++ NL ++ u "3. y").
Proof.
  split; [|split].
  - intros listNode before item after outs1 out outs2 Hitems H1 Hout Hblank H2
      isOrdered.
    assert (Hall : Forall2
                     (fun item out => getTextContent reparse self item = Some out)
                     (querySelectorAll [u "li"] listNode)
                     (outs1 ++ out :: outs2)).
    { rewrite Hitems. apply Forall2_app; [assumption|].
      constructor; assumption. }
    assert (Hne : querySelectorAll [u "li"] listNode <> [])
      by (rewrite Hitems; destruct before; discriminate).
    rewrite (@convertList_emits reparse self listNode _ Hne Hall).
    fold isOrdered. rewrite emitFrom_app.
    rewrite Nat.add_0_r, <- (Forall2_length H1).
    unfold emitFrom at 2. cbn [mapi_from List.concat].
    unfold isBlank in Hblank. rewrite Hblank. cbn [app].
    fold (emitFrom isOrdered (S (List.length before)) outs2).
    now rewrite <- !app_assoc.
  - intros index out outs Hnb. unfold emitFrom. cbn [mapi_from List.concat].
    unfold isBlank in Hnb. now rewrite Hnb.
  - vm_compute. reflexivity.
Qed.

End ListNumbering.


(** What [getTextContent] hands to the converter holds no nested list:
    after [removeAll] no element of the removed kinds is left. *)
Lemma hasTag_removeAll tags n : hasTag tags (removeAll tags n) = hasTag tags n.
Proof. destruct n; reflexivity. Qed.

Lemma removeAll_leaves_none tags n :
  querySelectorAll tags (removeAll tags n) = [].
Proof.
  unfold querySelectorAll.
  induction n as [s|s|tag a cs IH] using Node_forall_ind; try reflexivity.
  cbn [removeAll descendants].
  induction IH as [|c cs Hc _ IHcs]; [reflexivity|].
  destruct (hasTag tags c) eqn:Hc'; [exact IHcs|].
  cbn [flat_map app]. cbn [filter].
  rewrite hasTag_removeAll, Hc', filter_app, Hc, IHcs. reflexivity.
Qed.

(** C3 fails on the code.  [convertList] collects its items with
    [querySelectorAll('li')], which finds the item of the nested list
    too; the [list] rule of the bare service takes the direct children
    only.  The nested item [b] is emitted as item 2 of the outer list. *)
Theorem convertList_hoists_nested_items :
  querySelectorAll [u "li"] Examples.nestedList
  = [Examples.outerItem; Examples.innerItem; Examples.lastItem]
  /\ ListOutput.directItems Examples.nestedList
     = [Examples.outerItem; Examples.lastItem]
  /\ MarkdownConverter.getTextContent Examples.roundTrip
       (TurndownService.processNode 5 (TurndownService.rules Examples.mc))
       Examples.outerItem
     = Some (u "a")
  /\ TurndownService.turndown 20 Examples.mc
       (Examples.roundTrip [Examples.nestedList])
     = Some (u "1. a" ++ [LF] ++ u "2. b" ++ [LF] ++ u "3. c").
Proof.
  repeat split; vm_compute; reflexivity.
Qed.

(* --------------------------------------------------------------------- *)
(** *** The matcher on the patterns of the transforms *)
(* --------------------------------------------------------------------- *)

Section Matcher.
Import RegExp Direct.

Lemma between_advance b a c l a' c' :
  between (MState b a c) (MState (advance l b) a' c') = l.
Proof.
  unfold between, pos, advance. cbn [before].
  rewrite length_app, length_rev.
  replace (List.length l + List.length b - List.length b)%nat
    with (List.length l + 0)%nat by lia.
  rewrite <- (length_rev l) at 1.
  rewrite firstn_app_2. cbn [firstn]. rewrite app_nil_r.
  apply rev_involutive.
Qed.

Lemma search_Chr ml p a :
  forall b caps fuel,
    (List.length a <= fuel)%nat ->
    search fuel ml (Chr p) (MState b a caps)
    = match findFirst p a with
      | Some (l, c, r) =>
          Some (MState (advance l b) (c :: r) caps,
                MState (c :: advance l b) r [])
      | None => None
      end.
Proof.
  induction a as [|c a IH]; intros b caps fuel Hf.
  - destruct fuel; reflexivity.
  - destruct fuel as [|fuel]; [simpl in Hf; lia|].
    cbn [search findFirst]. unfold matchAt. cbn [rmatch after before].
    destruct (p c) eqn:Hp; [reflexivity|].
    cbn [step after before captures].
    rewrite IH by (simpl in Hf; lia).
    destruct (findFirst p a) as [[[l x] r]|]; [|reflexivity].
    unfold advance. cbn [rev]. now rewrite <- app_assoc.
Qed.

Lemma findFirst_none p (f : Replacer) s :
  findFirst p s = None ->
  flat_map (fun c => if p c then f [c] [] else [c]) s = s.
Proof.
  induction s as [|c s IH]; simpl; [reflexivity|].
  destruct (p c); [discriminate|].
  destruct (findFirst p s) as [[[l x] r]|]; [discriminate|].
  intros _. now rewrite IH.
Qed.

Lemma findFirst_some p (f : Replacer) s l x r :
  findFirst p s = Some (l, x, r) ->
  s = l ++ x :: r /\ p x = true
  /\ flat_map (fun c => if p c then f [c] [] else [c]) l = l.
Proof.
  revert l. induction s as [|c s IH]; simpl; intros l H; [discriminate|].
  destruct (p c) eqn:Hp.
  - injection H as <- <- <-. auto.
  - destruct (findFirst p s) as [[[l' x'] r']|]; [|discriminate].
    injection H as <- <- <-.
    destruct (IH l' eq_refl) as (-> & Hx & Hl).
    simpl. rewrite Hp, Hl. auto.
Qed.

(** Replacing every match of a one-code-unit class is a map over the
    input: a code unit of the class gives its replacement, any other
    code unit stays. *)
Lemma replaceLoop_Chr p (f : Replacer) fuel :
  forall b a caps,
    (List.length a <= fuel)%nat ->
    replaceLoop fuel false (Chr p) f [] (MState b a caps)
    = flat_map (fun c => if p c then f [c] [] else [c]) a.
Proof.
  induction fuel as [|fuel IH]; intros b a caps Hf.
  - destruct a; [reflexivity | simpl in Hf; lia].
  - cbn [replaceLoop]. unfold exec. cbn [after].
    rewrite search_Chr by lia.
    destruct (findFirst p a) as [[[l x] r]|] eqn:E.
    + destruct (@findFirst_some p f _ _ _ _ E) as (-> & Hx & Hl).
      rewrite between_advance.
      replace (between (MState (advance l b) (x :: r) caps)
                 (MState (x :: advance l b) r []))
        with [x]
        by (symmetry; apply (between_advance (advance l b) (x :: r) caps [x])).
      cbn [isEmpty captures app].
      rewrite IH by (rewrite length_app in Hf; simpl in Hf; lia).
      rewrite flat_map_app. cbn [flat_map]. rewrite Hx, Hl.
      now rewrite <- app_assoc.
    + cbn [app after]. now rewrite (@findFirst_none p f a E).
Qed.

Lemma replaceAll_Chr p (f : Replacer) input :
  replaceAll false (Chr p) f input
  = flat_map (fun c => if p c then f [c] [] else [c]) input.
Proof.
  unfold replaceAll, start. apply replaceLoop_Chr. lia.
Qed.

End Matcher.

(* --------------------------------------------------------------------- *)
(** *** Tables *)
(* --------------------------------------------------------------------- *)

Section Tables.
Import RegExp Direct TurndownService MarkdownConverter.

Lemma strOr_innerText n :
  strOr (textContent n) (strOr (innerText n) []) = textContent n.
Proof.
  unfold strOr, innerText. destruct (textContent n); reflexivity.
Qed.

Lemma replace_pipes s :
  replaceAll false rePipe (constant [BACKSLASH; PIPE]) s = escapePipes s.
Proof.
  unfold rePipe, lit. rewrite replaceAll_Chr. unfold escapePipes, constant.
  apply flat_map_ext. intros c. now rewrite N.eqb_sym.
Qed.

Lemma cellContent_direct cell :
  cellContent cell = escapePipes (trim (textContent cell)).
Proof.
  unfold cellContent. now rewrite strOr_innerText, replace_pipes.
Qed.

Lemma fold_rows hasHeader rows :
  forall index acc,
    fold_left
      (fun markdown '(rowIndex, row) =>
         let cells := querySelectorAll [u "td"; u "th"] row in
         let cellContents := List.map cellContent cells in
         let markdown := markdown ++ rowLine cellContents in
         if Nat.eqb rowIndex 0 && hasHeader then
           markdown ++ rowLine (List.map (fun _ => u "---") cellContents)
         else markdown)
      (mapi_from index (fun i row => (i, row)) rows) acc
    = acc ++ List.concat (mapi_from index (rowLines hasHeader) rows).
Proof.
  induction rows as [|row rows IH]; intros index acc.
  - simpl. now rewrite app_nil_r.
  - cbn [mapi_from fold_left List.concat]. rewrite IH. cbv zeta.
    unfold rowLines.
    rewrite (map_ext _ _ cellContent_direct).
    destruct (Nat.eqb index 0 && hasHeader); now rewrite <- ?app_assoc, ?app_nil_r.
Qed.

(** C7.  The content emitted for a cell is its text content, trimmed,
    with every pipe turned into backslash, pipe; each row is the line of
    its cells' contents; and the cell [a|b] gives the row [| a\|b |]. *)
Theorem table_cell_trimmed_and_pipes_escaped :
  (forall cell, cellContent cell = escapePipes (trim (textContent cell)))
  /\ (forall tableNode,
         convertTable tableNode
         = match querySelectorAll [u "tr"] tableNode with
           | [] => []
           | firstRow :: _ =>
               NL2
                 ++ List.concat
                      (mapi
                         (rowLines
                            (isSome (querySelector [u "thead"] tableNode)
                             || isSome (querySelector [u "th"] firstRow)))
                         (querySelectorAll [u "tr"] tableNode))
                 ++ NL
           end)
  /\ escapePipes (u "a|b") = u "a\|b"
  /\ convertTable Examples.pipeTable = NL2 ++ u "| a\|b |" ++ NL ++ NL
  /\ (forall reparse,
         turndown 5 (converter reparse) (Examples.roundTrip [Examples.pipeTable])
         = Some (u "| a\|b |")).
Proof.
  split; [exact cellContent_direct|]. split.
  { intros tableNode. unfold convertTable.
    destruct (querySelectorAll [u "tr"] tableNode) as [|firstRow rows] eqn:E;
      [reflexivity|].
    unfold mapi. rewrite fold_rows. now rewrite <- app_assoc. }
  split; [reflexivity|]. split; [vm_compute; reflexivity|].
  intros reparse. vm_compute. reflexivity.
Qed.

End Tables.

(* --------------------------------------------------------------------- *)
(** *** Code blocks *)
(* --------------------------------------------------------------------- *)

Section CodeBlocks.
Import RegExp Direct TurndownService MarkdownConverter.


(** A greedy repetition of a one-code-unit class before a continuation
    that cannot fail takes the longest run, if that is long enough. *)
Lemma repeatMatcher_greedy_run ml p (k : Cont) :
  (forall s, k s <> None) ->
  forall fuel lo b a caps,
    (lo + List.length a < fuel)%nat ->
    repeatMatcher (rmatch ml (Chr p)) true k fuel lo None (MState b a caps)
    = if (lo <=? List.length (takeWhile p a))%nat
      then k (MState (advance (takeWhile p a) b) (dropWhile p a) caps)
      else None.
Proof.
  intros Hk. induction fuel as [|fuel IH]; intros lo b a caps Hf; [lia|].
  cbn [repeatMatcher isZero rmatch after before captures].
  destruct a as [|c a].
  - cbn [takeWhile dropWhile List.length].
    destruct lo; reflexivity.
  - cbn [takeWhile dropWhile]. destruct (p c) eqn:Hp.
    + assert (Hpos : Nat.eqb (pos (MState (c :: b) a caps))
                       (pos (MState b (c :: a) caps)) = false)
        by (apply Nat.eqb_neq; unfold pos; simpl; lia).
      rewrite Hpos, andb_false_r. cbn [decHi option_map].
      rewrite IH by (simpl in Hf; destruct lo; simpl; lia).
      replace (advance (c :: takeWhile p a) b)
        with (advance (takeWhile p a) (c :: b))
        by (unfold advance; cbn [rev]; now rewrite <- app_assoc).
      cbn [List.length].
      destruct lo as [|lo]; cbn [Nat.eqb negb pred Nat.leb].
      * destruct (k (MState (advance (takeWhile p a) (c :: b))
                       (dropWhile p a) caps)) eqn:E; [reflexivity|].
        now apply Hk in E.
      * reflexivity.
    + cbn [List.length]. destruct lo; reflexivity.
Qed.

Lemma rmatch_plus_run ml p (k : Cont) b a caps :
  (forall s, k s <> None) ->
  rmatch ml (plus (Chr p)) k (MState b a caps)
  = if isEmpty (takeWhile p a) then None
    else k (MState (advance (takeWhile p a) b) (dropWhile p a) caps).
Proof.
  intros Hk. unfold plus.
  change (rmatch ml (Rep true 1 None (Chr p)) k (MState b a caps))
    with (repeatMatcher (rmatch ml (Chr p)) true k
            (S (1 + List.length a)) 1 None (MState b a caps)).
  rewrite repeatMatcher_greedy_run by (assumption || lia).
  destruct (takeWhile p a); reflexivity.
Qed.






End CodeBlocks.

Section CodeBlockText.
Import RegExp Direct TurndownService MarkdownConverter.







Variable reparse : list Node -> Node.



End CodeBlockText.


(* --------------------------------------------------------------------- *)
(** *** The theorems at concrete inputs *)
(* --------------------------------------------------------------------- *)



Lemma blank_item_skipped_but_counted_witness :
  MarkdownConverter.convertList Examples.roundTrip
    (TurndownService.processNode 5 (TurndownService.rules Examples.mc))
    Examples.olWithEmptyItem
  = Some (TurndownService.NL2
            ++ ListOutput.emitFrom true 0 [u "x"]
            ++ ListOutput.emitFrom true 2 [u "y"]
            ++ TurndownService.NL)
  /\ ListOutput.emitFrom true 2 [u "y"]
     = MarkdownConverter.formatItem true 2 (trim (u "y"))
         ++ ListOutput.emitFrom true 3 [].
Proof.
  split.
  - apply (proj1
             (blank_item_skipped_but_counted Examples.roundTrip
                (TurndownService.processNode 5
                   (TurndownService.rules Examples.mc)))
             Examples.olWithEmptyItem
             [Examples.el "li" [Examples.tx "x"]]
             (Examples.el "li" [])
             [Examples.el "li" [Examples.tx "y"]]
             [u "x"] [] [u "y"]).
    + reflexivity.
    + repeat constructor.
    + reflexivity.
    + reflexivity.
    + repeat constructor.
  - apply (proj1 (proj2
             (blank_item_skipped_but_counted Examples.roundTrip
                (TurndownService.processNode 5
                   (TurndownService.rules Examples.mc))))).
    reflexivity.
Defined.

(* --------------------------------------------------------------------- *)
(** *** Trimmed results *)
(* --------------------------------------------------------------------- *)

Section Trimmed.
Import TurndownService MarkdownConverter.

Lemma trimStart_head s c r : trimStart s = c :: r -> isSpace c = false.
Proof.
  induction s as [|x s IH]; simpl; [discriminate|].
  destruct (isSpace x) eqn:E; [exact IH|].
  intros H. injection H as <- _. exact E.
Qed.

Lemma trimStart_fixed s :
  match s with [] => True | c :: _ => isSpace c = false end ->
  trimStart s = s.
Proof. destruct s as [|c s]; simpl; [reflexivity|]. now intros ->. Qed.

Lemma trimStart_idem s : trimStart (trimStart s) = trimStart s.
Proof.
  apply trimStart_fixed. destruct (trimStart s) eqn:E; [exact I|].
  exact (trimStart_head _ E).
Qed.

Lemma trimStart_snoc l c :
  isSpace c = false -> trimStart (l ++ [c]) = trimStart l ++ [c].
Proof.
  intros Hc. induction l as [|x l IH]; simpl.
  - now rewrite Hc.
  - destruct (isSpace x); [exact IH | reflexivity].
Qed.

Lemma trimEnd_cons c s :
  isSpace c = false -> trimEnd (c :: s) = c :: trimEnd s.
Proof.
  intros Hc. unfold trimEnd. cbn [rev].
  rewrite trimStart_snoc by assumption.
  rewrite rev_app_distr. reflexivity.
Qed.

Lemma trimEnd_idem s : trimEnd (trimEnd s) = trimEnd s.
Proof.
  unfold trimEnd. rewrite rev_involutive. now rewrite trimStart_idem.
Qed.

Lemma trim_head s c r : trim s = c :: r -> isSpace c = false.
Proof.
  unfold trim. destruct (trimStart s) as [|x t] eqn:E; [discriminate|].
  pose proof (trimStart_head _ E) as Hx.
  rewrite trimEnd_cons by assumption. intros H. now injection H as <- _.
Qed.

Lemma trim_last s l c : trim s = l ++ [c] -> isSpace c = false.
Proof.
  unfold trim, trimEnd. intros H.
  apply (f_equal (@rev N)) in H.
  rewrite rev_involutive, rev_app_distr in H. cbn [rev app] in H.
  exact (trimStart_head _ H).
Qed.

Lemma trim_idem s : trim (trim s) = trim s.
Proof.
  unfold trim at 1.
  rewrite (@trimStart_fixed (trim s)).
  - unfold trim. apply trimEnd_idem.
  - destruct (trim s) eqn:E; [exact I|]. exact (trim_head _ E).
Qed.

(** What [turndown] returns has no white space or line terminator at
    either end, whatever the rules and the tree, and trimming it again
    changes nothing. *)
Theorem turndown_result_trimmed fuel this body out :
  turndown fuel this body = Some out ->
  trim out = out
  /\ (forall c r, out = c :: r -> isSpace c = false)
  /\ (forall l c, out = l ++ [c] -> isSpace c = false).
Proof.
  unfold turndown.
  destruct (processNode _ _ _ _) as [raw|]; [|discriminate].
  intros H. injection H as <-.
  split; [apply trim_idem|]. split.
  - intros c r. apply trim_head.
  - intros l c. apply trim_last.
Qed.

End Trimmed.

Lemma turndown_result_trimmed_witness :
  trim (u "1. x" ++ [LF] ++ u "2. y") = u "1. x" ++ [LF] ++ u "2. y"
  /\ (forall c r, u "1. x" ++ [LF] ++ u "2. y" = c :: r -> isSpace c = false)
  /\ (forall l c, u "1. x" ++ [LF] ++ u "2. y" = l ++ [c] ->
                  isSpace c = false).
Proof.
  apply (@turndown_result_trimmed 20 Examples.mc
           (Examples.roundTrip [Examples.olStart5])).
  vm_compute. reflexivity.
Defined.

(* --------------------------------------------------------------------- *)
(** *** The sanitizer *)
(* --------------------------------------------------------------------- *)

Section Sanitizer.
Import RegExp TurndownService MarkdownConverter.

Variable parseFragment : str -> list Node.

Lemma filter_nil_forall {A} (f : A -> bool) l :
  List.filter f l = [] -> forall x, In x l -> f x = false.
Proof.
  intros H x Hx. destruct (f x) eqn:E; [|reflexivity].
  assert (Hin : In x (List.filter f l)) by (apply filter_In; auto).
  rewrite H in Hin. destruct Hin.
Qed.

Lemma hasTag_mapText tags f n : hasTag tags (mapText f n) = hasTag tags n.
Proof. destruct n; reflexivity. Qed.

Lemma hasTag_removeEmptyBlocks tags n :
  hasTag tags (removeEmptyBlocks n) = hasTag tags n.
Proof. destruct n; reflexivity. Qed.

Lemma descendants_mapText f n :
  descendants (mapText f n) = List.map (mapText f) (descendants n).
Proof.
  induction n as [s|s|tag a cs IH] using Node_forall_ind; try reflexivity.
  cbn [mapText descendants].
  induction IH as [|c cs Hc _ IHcs]; [reflexivity|].
  cbn [List.map flat_map]. rewrite Hc, IHcs, map_app. reflexivity.
Qed.

(** Every node left by [removeEmptyBlocks] is the image of a node that
    was there. *)
Lemma descendants_removeEmptyBlocks n d' :
  In d' (descendants (removeEmptyBlocks n)) ->
  exists d, In d (descendants n) /\ d' = removeEmptyBlocks d.
Proof.
  induction n as [s|s|tag a cs IH] using Node_forall_ind;
    try (intros []).
  cbn [removeEmptyBlocks descendants].
  induction IH as [|c cs Hc _ IHcs]; [intros []|].
  cbn [flat_map]. destruct (isEmptyBlock c).
  - intros H. destruct (IHcs H) as (d & Hd & ->).
    exists d. split; [|reflexivity]. apply in_or_app. now right.
  - cbn [flat_map]. intros H. apply in_app_or in H.
    destruct H as [[<-|H]|H].
    + exists c. split; [now left | reflexivity].
    + destruct (Hc H) as (d & Hd & ->). exists d.
      split; [|reflexivity]. right. apply in_or_app. now left.
    + destruct (IHcs H) as (d & Hd & ->). exists d.
      split; [|reflexivity]. right. apply in_or_app. now right.
Qed.

Lemma replace_nbsp s :
  replaceAll false reNbsp (constant [SP]) s
  = List.map (fun c => if c =? NBSP then SP else c) s.
Proof.
  unfold reNbsp, lit. rewrite replaceAll_Chr. unfold constant.
  induction s as [|c s IH]; [reflexivity|].
  cbn [flat_map List.map]. rewrite IH, (N.eqb_sym NBSP c).
  destruct (c =? NBSP); reflexivity.
Qed.

Lemma replace_nbsp_free s :
  ~ In NBSP (replaceAll false reNbsp (constant [SP]) s).
Proof.
  rewrite replace_nbsp. intros H. apply in_map_iff in H.
  destruct H as (c & Hc & _).
  destruct (c =? NBSP) eqn:E; [discriminate Hc|].
  apply N.eqb_neq in E. congruence.
Qed.

(** After [preProcessHtml] no [script], [style] or [noscript] element is
    left anywhere in the tree, and no text node holds a non-breaking
    space. *)
Theorem preProcessHtml_sanitizes html :
  querySelectorAll scriptTags
    (Element (u "div") [] (preProcessHtml parseFragment html)) = []
  /\ Forall (fun t => ~ In NBSP (textData t))
       (getTextNodes
          (Element (u "div") [] (preProcessHtml parseFragment html))).
Proof.
  unfold preProcessHtml.
  set (t0 := Element (u "div") [] (parseFragment html)).
  set (t1 := removeAll _ t0).
  set (f := replaceAll false reNbsp (constant [SP])).
  assert (Hroot : Element (u "div") []
                    (childNodes (removeEmptyBlocks (mapText f t1)))
                  = removeEmptyBlocks (mapText f t1)) by reflexivity.
  rewrite Hroot. clear Hroot.
  assert (Hsrc : forall d', In d' (descendants (removeEmptyBlocks (mapText f t1))) ->
                   exists d1, In d1 (descendants t1)
                              /\ d' = removeEmptyBlocks (mapText f d1)).
  { intros d' Hd'. apply descendants_removeEmptyBlocks in Hd'.
    destruct Hd' as (d2 & Hd2 & ->).
    rewrite descendants_mapText in Hd2. apply in_map_iff in Hd2.
    destruct Hd2 as (d1 & <- & Hd1). eauto. }
  split.
  - unfold querySelectorAll.
    destruct (List.filter _ _) as [|x l] eqn:E; [reflexivity|].
    assert (Hx : In x (List.filter (hasTag scriptTags)
                         (descendants (removeEmptyBlocks (mapText f t1)))))
      by (rewrite E; now left).
    apply filter_In in Hx. destruct Hx as [Hx Htag].
    destruct (Hsrc _ Hx) as (d1 & Hd1 & ->).
    rewrite hasTag_removeEmptyBlocks, hasTag_mapText in Htag.
    pose proof (filter_nil_forall _ _
                  (removeAll_leaves_none scriptTags t0) _ Hd1) as Hno.
    fold scriptTags in Hno. congruence.
  - apply Forall_forall. intros t Ht. unfold getTextNodes in Ht.
    apply filter_In in Ht. destruct Ht as [Ht _].
    destruct (Hsrc _ Ht) as (d1 & _ & ->).
    destruct d1 as [s|s|tag a cs]; cbn [mapText removeEmptyBlocks textData];
      try (intros []).
    apply replace_nbsp_free.
Qed.

End Sanitizer.

Section SanitizerKeeps.
Import RegExp TurndownService MarkdownConverter.

Variable parseFragment : str -> list Node.

Lemma in_descendants_head tag a c cs d :
  d = c \/ In d (descendants c) -> In d (descendants (Element tag a (c :: cs))).
Proof.
  cbn [descendants flat_map]. intros [->|H]; [now left|].
  right. apply in_or_app. now left.
Qed.

Lemma in_descendants_tail tag a c cs d :
  In d (descendants (Element tag a cs)) ->
  In d (descendants (Element tag a (c :: cs))).
Proof.
  cbn [descendants flat_map]. intros H. right. apply in_or_app. now right.
Qed.

Lemma removeAll_clean tags n :
  (forall d, In d (descendants n) -> hasTag tags d = false) ->
  removeAll tags n = n.
Proof.
  induction n as [s|s|tag a cs IH] using Node_forall_ind; try reflexivity.
  intros H. cbn [removeAll]. f_equal.
  induction IH as [|c cs Hc _ IHcs]; [reflexivity|].
  rewrite (H c) by (apply in_descendants_head; now left).
  rewrite Hc by (intros d Hd; apply H, in_descendants_head; now right).
  rewrite IHcs by (intros d Hd; apply H, in_descendants_tail, Hd).
  reflexivity.
Qed.

Lemma mapText_fixed f n :
  (forall s, In (Text s) (n :: descendants n) -> f s = s) ->
  mapText f n = n.
Proof.
  induction n as [s|s|tag a cs IH] using Node_forall_ind; try reflexivity.
  - intros H. cbn [mapText]. rewrite H; [reflexivity | now left].
  - intros H. cbn [mapText]. f_equal.
    assert (H' : forall s, In (Text s) (descendants (Element tag a cs)) ->
                           f s = s) by (intros s Hs; apply H; now right).
    clear H. induction IH as [|c cs Hc _ IHcs]; [reflexivity|].
    cbn [List.map]. rewrite Hc, IHcs; [reflexivity| |].
    + intros s Hs. apply H', in_descendants_tail, Hs.
    + intros s Hs. apply H', in_descendants_head.
      destruct Hs as [<-|Hs]; [now left | now right].
Qed.

Lemma removeEmptyBlocks_clean n :
  (forall d, In d (descendants n) -> isEmptyBlock d = false) ->
  removeEmptyBlocks n = n.
Proof.
  induction n as [s|s|tag a cs IH] using Node_forall_ind; try reflexivity.
  intros H. cbn [removeEmptyBlocks]. f_equal.
  induction IH as [|c cs Hc _ IHcs]; [reflexivity|].
  rewrite (H c) by (apply in_descendants_head; now left).
  rewrite Hc by (intros d Hd; apply H, in_descendants_head; now right).
  rewrite IHcs by (intros d Hd; apply H, in_descendants_tail, Hd).
  reflexivity.
Qed.

Lemma replace_nbsp_fixed s :
  ~ In NBSP s -> replaceAll false reNbsp (constant [SP]) s = s.
Proof.
  intros H. rewrite replace_nbsp.
  induction s as [|c s IH]; [reflexivity|].
  cbn [List.map]. rewrite IH by (intros Hs; apply H; now right).
  destruct (N.eqb_spec c NBSP) as [E|_]; [|reflexivity].
  exfalso. apply H. left. now rewrite E.
Qed.

(** The sanitizer changes nothing else: on a fragment without
    [script], [style] or [noscript] elements, without non-breaking
    spaces and without childless [p] or [div], the tree handed to the
    converter is the parsed fragment itself. *)
Theorem preProcessHtml_keeps_clean_fragment html :
  (forall d,
      In d (descendants (Element (u "div") [] (parseFragment html))) ->
      hasTag scriptTags d = false
      /\ isEmptyBlock d = false
      /\ ~ In NBSP (textData d)) ->
  preProcessHtml parseFragment html = parseFragment html.
Proof.
  intros H. unfold preProcessHtml.
  rewrite (@removeAll_clean scriptTags) by (intros d Hd; apply (H d Hd)).
  rewrite mapText_fixed.
  - rewrite removeEmptyBlocks_clean by (intros d Hd; apply (H d Hd)).
    reflexivity.
  - intros s [Hs|Hs]; [discriminate|].
    apply replace_nbsp_fixed. apply (H _ Hs).
Qed.

End SanitizerKeeps.

Lemma preProcessHtml_keeps_clean_fragment_witness :
  MarkdownConverter.preProcessHtml parsesToParagraph (u "<p>hi</p>")
  = parsesToParagraph (u "<p>hi</p>").
Proof.
  apply preProcessHtml_keeps_clean_fragment.
  intros d [<-|[<-|[]]]; repeat split; try reflexivity;
    vm_compute; intuition discriminate.
Defined.

(* --------------------------------------------------------------------- *)
(** *** The metadata of a result *)
(* --------------------------------------------------------------------- *)

Section Metadata.
Import TurndownService MarkdownConverter.

Variable reparse : list Node -> Node.
Variable parseFragment : str -> list Node.
Variable now : str.
Variable percent2 : nat -> nat -> str.




End Metadata.


(* --------------------------------------------------------------------- *)
(** *** Filters and headings *)
(* --------------------------------------------------------------------- *)

Section Filters.
Import TurndownService.

Ltac split_ranges :=
  repeat match goal with
    | H : (_ && _)%bool = true |- _ => apply andb_prop in H; destruct H
    | H : (_ <=? _) = true |- _ => apply N.leb_le in H
    | H : (_ && _)%bool = false |- _ => apply andb_false_iff in H; destruct H
    | H : (_ <=? _) = false |- _ => apply N.leb_gt in H
    end.

Lemma lowerChar_upperChar c : lowerChar (upperChar c) = lowerChar c.
Proof.
  unfold lowerChar, upperChar.
  destruct ((97 <=? c) && (c <=? 122)) eqn:E1;
    destruct ((65 <=? c) && (c <=? 90)) eqn:E2;
    try reflexivity; split_ranges; try lia.
  destruct ((65 <=? c - 32) && (c - 32 <=? 90)) eqn:E3; split_ranges; lia.
Qed.

Lemma toLowerCase_toUpperCase s : toLowerCase (toUpperCase s) = toLowerCase s.
Proof.
  unfold toLowerCase, toUpperCase. rewrite map_map.
  apply map_ext. exact lowerChar_upperChar.
Qed.


Lemma heading_name nn d :
  toLowerCase nn = [104; d] -> 49 <= d <= 54 -> exists x, nn = [x; d].
Proof.
  destruct nn as [|x [|y [|z nn]]]; simpl; try discriminate.
  intros H Hd. injection H as _ Hy. exists x. f_equal. f_equal.
  unfold lowerChar in Hy.
  destruct ((65 <=? y) && (y <=? 90)) eqn:E; [|exact Hy].
  split_ranges. lia.
Qed.

Lemma heading_of_digit self content parent node (k : nat) :
  (1 <= k <= 6)%nat ->
  toLowerCase (nodeName node) = [104; digitChar k] ->
  nth_error (nodeName node) 1 = Some (digitChar k)
  /\ heading_replacement self content parent node
     = Some (NL2 ++ repeatStr (u "#") k ++ [SP] ++ content ++ NL2).
Proof.
  intros Hk H. unfold digitChar in *.
  destruct (heading_name _ H) as [x Hx]; [lia|].
  unfold heading_replacement, headingLevel. rewrite Hx. cbn [nth_error].
  split; [reflexivity|].
  replace (isDigit (48 + N.of_nat k)) with true
    by (symmetry; unfold isDigit; apply andb_true_intro;
        split; apply N.leb_le; lia).
  replace (N.to_nat (48 + N.of_nat k - 48)) with k by lia.
  reflexivity.
Qed.

(** On every node the heading filter accepts, the node name ends in a
    digit from 1 to 6 and the heading rule emits that many [#]: the
    level is never read as not-a-number. *)
Theorem heading_level_is_tag_digit self content parent node :
  matchesFilter parent node (FList hTags) = true ->
  exists k,
    (1 <= k <= 6)%nat
    /\ nth_error (nodeName node) 1 = Some (digitChar k)
    /\ heading_replacement self content parent node
       = Some (NL2 ++ repeatStr (u "#") k ++ [SP] ++ content ++ NL2).
Proof.
  cbn [matchesFilter hTags List.map existsb]. intros H.
  repeat (apply orb_prop in H; destruct H as [H|H]);
    try discriminate H; apply str_eqb_eq in H;
    [exists 1%nat | exists 2%nat | exists 3%nat
     | exists 4%nat | exists 5%nat | exists 6%nat];
    (split; [lia|]); apply heading_of_digit; (lia || exact H).
Qed.

End Filters.


Lemma heading_level_is_tag_digit_witness :
  exists k,
    (1 <= k <= 6)%nat
    /\ nth_error (nodeName h3Node) 1 = Some (digitChar k)
    /\ TurndownService.heading_replacement
         (fun _ _ => None) (u "t") None h3Node
       = Some (TurndownService.NL2 ++ repeatStr (u "#") k ++ [SP] ++ u "t"
                 ++ TurndownService.NL2).
Proof.
  apply heading_level_is_tag_digit. reflexivity.
Defined.

(* --------------------------------------------------------------------- *)
(** *** Links *)
(* --------------------------------------------------------------------- *)

Section Links.
Import TurndownService MarkdownConverter.

Variable reparse : list Node -> Node.

(** An anchor converts to its children's output alone when it has no
    [href] or an empty one, with no bracket left behind; with an [href]
    it becomes an inline link around that output, the title in quotes
    when there is one. *)
Theorem anchor_without_href_is_its_content fuel parent attrs cs content :
  processChildren fuel (rules (converter reparse)) (Element (u "a") attrs cs)
  = Some content ->
  processNode (S fuel) (rules (converter reparse)) parent
    (Element (u "a") attrs cs)
  = Some (match lookupAttr (u "href") attrs with
          | Some (c :: href) =>
              u "[" ++ content ++ u "](" ++ (c :: href)
                ++ titlePart (lookupAttr (u "title") attrs) ++ u ")"
          | _ => content
          end).
Proof.
  intros H. cbn [processNode].
  assert (Hfind : findMatchingRule (rules (converter reparse)) parent
                    (Element (u "a") attrs cs)
                  = Some (MkRule (u "link") (FTag (u "a")) link_replacement))
    by reflexivity.
  rewrite Hfind. unfold processChildren in H. cbn [childNodes] in H.
  rewrite H. cbn [replacement]. unfold link_replacement.
  cbn [getAttribute].
  destruct (lookupAttr (u "href") attrs) as [[|c href]|]; reflexivity.
Qed.

End Links.

Lemma anchor_without_href_is_its_content_witness :
  TurndownService.processNode 3
    (TurndownService.rules (MarkdownConverter.converter Examples.roundTrip))
    None bareAnchor
  = Some (u "text").
Proof.
  apply (@anchor_without_href_is_its_content Examples.roundTrip 2 None []
           [Text (u "text")] (u "text")).
  reflexivity.
Defined.

(* --------------------------------------------------------------------- *)
(** *** Continuation lines of a list item *)
(* --------------------------------------------------------------------- *)

Section Continuation.
Import TurndownService MarkdownConverter.

Lemma mapi_from_later {A B} (first rest : A -> B) (l : list A) :
  forall k,
    mapi_from (S k) (fun i x => if Nat.eqb i 0 then first x else rest x) l
    = List.map rest l.
Proof.
  induction l as [|x l IH]; intros k; [reflexivity|].
  cbn [mapi_from List.map Nat.eqb]. now rewrite IH.
Qed.

Lemma length_u s : List.length (u s) = String.length s.
Proof.
  unfold u. rewrite length_map.
  induction s as [|a s IH]; simpl; [reflexivity | now rewrite IH].
Qed.

Lemma decimal_two_digits n : (10 <= n)%nat -> (2 <= List.length (decimal n))%nat.
Proof.
  intros Hn. unfold decimal. rewrite length_u.
  pose proof (DecimalNat.Unsigned.of_to n) as Hrt.
  destruct (Nat.to_uint n) as [|d|d|d|d|d|d|d|d|d|d];
    [vm_compute in Hrt; lia|..];
    (destruct d; [vm_compute in Hrt; lia|..]; simpl; lia).
Qed.

(** The first line of an item carries the marker and every further line
    the indent: two spaces in an unordered list, three in an ordered
    one.  The indent is as wide as the marker in an unordered list and
    for the first nine items of an ordered list; from the tenth item on
    the marker is wider than the indent. *)
Theorem continuation_lines_indented :
  (forall isOrdered index content,
      exists first rest,
        split LF content = first :: rest
        /\ formatItem isOrdered index content
           = join NL
               ((marker isOrdered index ++ first)
                  :: List.map
                       (fun line =>
                          (if isOrdered then u "   " else u "  ") ++ line)
                       rest)
             ++ NL)
  /\ (forall index, List.length (marker false index) = 2%nat)
  /\ (forall index,
         (index < 9)%nat -> List.length (marker true index) = 3%nat)
  /\ (forall index,
         (9 <= index)%nat -> (3 < List.length (marker true index))%nat).
Proof.
  split; [|split; [reflexivity|split]].
  - intros isOrdered index content.
    destruct (split_head LF content) as (first & rest & E).
    exists first, rest. split; [exact E|].
    unfold formatItem. rewrite E. unfold mapi.
    cbn [mapi_from Nat.eqb].
    now rewrite (mapi_from_later
                   (fun line => marker isOrdered index ++ line)
                   (fun line => (if isOrdered then u "   " else u "  ") ++ line)).
  - intros index H.
    do 9 (destruct index as [|index]; [reflexivity|]). lia.
  - intros index H. unfold marker. rewrite length_app.
    pose proof (@decimal_two_digits (index + 1) ltac:(lia)).
    change (List.length (u ". ")) with 2%nat. lia.
Qed.

End Continuation.

Lemma continuation_lines_indented_witness :
  List.length (TurndownService.marker true 8) = 3%nat
  /\ (3 < List.length (TurndownService.marker true 9))%nat.
Proof.
  pose proof continuation_lines_indented as (_ & _ & H3 & H4).
  split; [apply H3 | apply H4]; lia.
Defined.

(* --------------------------------------------------------------------- *)
(** *** Block quotes *)
(* --------------------------------------------------------------------- *)

Section BlockQuotes.
Import TurndownService MarkdownConverter.

Lemma split_without sep s : ~ In sep s -> split sep s = [s].
Proof.
  induction s as [|c s IH]; intros H; [reflexivity|].
  cbn [split]. destruct (N.eqb_spec c sep) as [->|_].
  - exfalso. apply H. now left.
  - rewrite IH by (intros Hs; apply H; now right). reflexivity.
Qed.

Lemma split_app_sep sep a b :
  ~ In sep a -> split sep (a ++ sep :: b) = a :: split sep b.
Proof.
  induction a as [|c a IH]; intros H.
  - cbn [app split]. now rewrite N.eqb_refl.
  - cbn [app split]. destruct (N.eqb_spec c sep) as [->|_].
    + exfalso. apply H. now left.
    + rewrite IH by (intros Hs; apply H; now right). reflexivity.
Qed.

Lemma split_pieces sep s : Forall (fun l => ~ In sep l) (split sep s).
Proof.
  induction s as [|c s IH]; cbn [split].
  - constructor; [intros [] | constructor].
  - destruct (N.eqb_spec c sep) as [->|Hne].
    + constructor; [intros [] | exact IH].
    + destruct (split sep s) as [|l ls]; [repeat constructor; intros [E|[]]; congruence|].
      inversion IH as [|? ? Hl Hls]; subst. constructor; [|exact Hls].
      intros [E|Hin]; [congruence | now apply Hl].
Qed.

Lemma split_join sep ls :
  ls <> [] -> Forall (fun l => ~ In sep l) ls ->
  split sep (join [sep] ls) = ls.
Proof.
  intros Hne H. induction H as [|l ls Hl Hls IH]; [congruence|].
  destruct ls as [|l' ls].
  - cbn [join]. now apply split_without.
  - change (join [sep] (l :: l' :: ls)) with (l ++ sep :: join [sep] (l' :: ls)).
    rewrite split_app_sep by assumption.
    rewrite IH by discriminate. reflexivity.
Qed.

Lemma trimStart_sub s c : In c (trimStart s) -> In c s.
Proof.
  induction s as [|x s IH]; simpl; [auto|].
  destruct (isSpace x); [|auto]. intros H. right. now apply IH.
Qed.

Lemma trim_sub s c : In c (trim s) -> In c s.
Proof.
  unfold trim, trimEnd. intros H.
  apply in_rev, trimStart_sub, in_rev in H. now apply trimStart_sub.
Qed.

Lemma startsSolid_app a b : startsSolid a -> startsSolid (a ++ b).
Proof. destruct a; [intros [] | auto]. Qed.

Lemma startsSolid_trimStart s : startsSolid s -> trimStart s = s.
Proof. destruct s as [|c s]; [intros []|]. simpl. now intros ->. Qed.

Lemma trim_solid s : startsSolid s -> startsSolid (rev s) -> trim s = s.
Proof.
  intros H1 H2. unfold trim, trimEnd.
  rewrite (@startsSolid_trimStart _ H1), (@startsSolid_trimStart _ H2).
  apply rev_involutive.
Qed.

Lemma trim_framed body :
  startsSolid body -> startsSolid (rev body) ->
  trim (NL2 ++ body ++ NL2) = body.
Proof.
  intros H1 H2. unfold trim, trimEnd, NL2.
  change (trimStart ([LF; LF] ++ body ++ [LF; LF]))
    with (trimStart (body ++ [LF; LF])).
  rewrite (@startsSolid_trimStart _ (@startsSolid_app body [LF; LF] H1)).
  rewrite rev_app_distr.
  change (trimStart (rev [LF; LF] ++ rev body)) with (trimStart (rev body)).
  rewrite (@startsSolid_trimStart _ H2). apply rev_involutive.
Qed.

Lemma trim_ends_solid s : trim s <> [] -> startsSolid (rev (trim s)).
Proof.
  intros Hne. destruct (rev (trim s)) as [|c r] eqn:E.
  - apply (f_equal (@rev N)) in E. rewrite rev_involutive in E.
    now apply Hne.
  - apply (f_equal (@rev N)) in E. rewrite rev_involutive in E.
    cbn [rev] in E. exact (@trim_last _ _ _ E).
Qed.

Lemma quoteLine_solid line :
  startsSolid (quoteLine line) /\ startsSolid (rev (quoteLine line))
  /\ exists r, quoteLine line = 62 :: r.
Proof.
  unfold quoteLine. destruct (trim line) as [|c t] eqn:E; cbn [isEmpty].
  - repeat split; try reflexivity. now exists [].
  - split; [reflexivity|]. split; [|now exists (SP :: c :: t)].
    rewrite rev_app_distr. apply startsSolid_app.
    rewrite <- E. apply trim_ends_solid. rewrite E. discriminate.
Qed.

Lemma quoteLine_no_newline line : ~ In LF line -> ~ In LF (quoteLine line).
Proof.
  intros H. unfold quoteLine.
  destruct (isEmpty (trim line)).
  - intros [E|[]]. discriminate.
  - intros [E|[E|Hin]]; try discriminate. apply H. now apply trim_sub.
Qed.

Lemma join_solid qs :
  qs <> [] ->
  Forall (fun q => startsSolid q /\ startsSolid (rev q)) qs ->
  startsSolid (join NL qs) /\ startsSolid (rev (join NL qs)).
Proof.
  intros Hne H. induction H as [|q qs [Hq1 Hq2] Hqs IH]; [congruence|].
  destruct qs as [|q' qs]; [now split|].
  change (join NL (q :: q' :: qs)) with (q ++ NL ++ join NL (q' :: qs)).
  split; [now apply startsSolid_app|].
  rewrite !rev_app_distr, <- app_assoc. apply startsSolid_app.
  apply IH. discriminate.
Qed.

Lemma quoteLine_again q :
  startsSolid q -> startsSolid (rev q) -> quoteLine q = u "> " ++ q.
Proof.
  intros H1 H2. unfold quoteLine. rewrite (@trim_solid _ H1 H2).
  destruct q; [destruct H1 | reflexivity].
Qed.

(** The custom block quote rule puts [>] at the head of every line of
    its content, one quoted line for each line.  Applied to its own
    output, for a quote inside a quote, it adds exactly one more [> ] in
    front of each of those lines and nothing else. *)
Theorem blockquote_nesting_adds_one_marker
  (self1 self2 : Self) content parent1 node1 parent2 node2 :
  let quoted := List.map quoteLine (split LF (trim content)) in
  blockquotes_replacement self1 content parent1 node1
  = Some (NL2 ++ join NL quoted ++ NL2)
  /\ List.length quoted = List.length (split LF (trim content))
  /\ Forall (fun q => exists r, q = 62 :: r) quoted
  /\ blockquotes_replacement self2 (NL2 ++ join NL quoted ++ NL2)
       parent2 node2
     = Some (NL2 ++ join NL (List.map (fun q => u "> " ++ q) quoted) ++ NL2).
Proof.
  intros quoted.
  assert (Hsolid : Forall (fun q => startsSolid q /\ startsSolid (rev q))
                     quoted).
  { apply Forall_forall. intros q Hq. apply in_map_iff in Hq.
    destruct Hq as (l & <- & _).
    destruct (quoteLine_solid l) as (H1 & H2 & _). now split. }
  assert (Hne : quoted <> []).
  { unfold quoted. destruct (split_head LF (trim content)) as (l & ls & ->).
    discriminate. }
  assert (Hnl : Forall (fun q => ~ In LF q) quoted).
  { apply Forall_forall. intros q Hq. apply in_map_iff in Hq.
    destruct Hq as (l & <- & Hl). apply quoteLine_no_newline.
    exact (proj1 (Forall_forall _ _) (split_pieces LF (trim content)) l Hl). }
  split; [reflexivity|]. split; [apply length_map|]. split.
  { apply Forall_forall. intros q Hq. apply in_map_iff in Hq.
    destruct Hq as (l & <- & _). apply quoteLine_solid. }
  unfold blockquotes_replacement. do 3 f_equal.
  destruct (@join_solid _ Hne Hsolid) as [J1 J2].
  rewrite (@trim_framed _ J1 J2).
  change NL with [LF]. rewrite (@split_join LF _ Hne Hnl).
  fold quoteLine.
  change (fun line : str =>
            let trimmed := trim line in
            if isEmpty trimmed then u ">" else u "> " ++ trimmed)
    with quoteLine.
  f_equal. apply map_ext_in. intros q Hq.
  destruct (proj1 (Forall_forall _ _) Hsolid q Hq) as [H1 H2].
  now apply quoteLine_again.
Qed.

End BlockQuotes.

(* --------------------------------------------------------------------- *)
(** *** The walk returns *)
(* --------------------------------------------------------------------- *)

Section WalkReturns.
Import TurndownService.

Lemma concatM_ext (p1 p2 : Node -> option str) cs :
  (forall c, In c cs -> p1 c = p2 c) -> concatM p1 cs = concatM p2 cs.
Proof.
  induction cs as [|c cs IH]; intros H; [reflexivity|].
  cbn [concatM]. rewrite (H c) by now left.
  rewrite IH by (intros x Hx; apply H; now right). reflexivity.
Qed.

Lemma concatM_returns (process : Node -> option str) cs :
  (forall c, In c cs -> process c <> None) -> concatM process cs <> None.
Proof.
  induction cs as [|c cs IH]; intros H; [discriminate|].
  cbn [concatM]. destruct (process c) eqn:E;
    [|exfalso; apply (H c); [now left | exact E]].
  destruct (concatM process cs) eqn:E'; [discriminate|].
  exfalso. apply IH; [|reflexivity]. intros x Hx. apply H. now right.
Qed.

Lemma height_child tag a cs c :
  In c cs -> (Direct.height c < Direct.height (Element tag a cs))%nat.
Proof.
  cbn [Direct.height]. induction cs as [|x cs IH]; [intros []|].
  cbn [fold_right]. intros [->|H]; [lia|]. specialize (IH H). lia.
Qed.

(** On a class of trees closed under taking children, on which every
    rule found calls back on child nodes only, the walk of a tree
    returns within a depth of its height plus one, and gives the same
    output at every greater depth. *)
Lemma processNode_returns_on (C : Node -> Prop) rs :
  (forall tag a cs c, C (Element tag a cs) -> In c cs -> C c) ->
  (forall parent node rule,
      C node -> findMatchingRule rs parent node = Some rule ->
      CallsBackOnChildren rule) ->
  forall n, C n ->
  forall parent,
    exists out,
      forall fuel, (Direct.height n < fuel)%nat ->
                   processNode fuel rs parent n = Some out.
Proof.
  intros Hclosed Hrs.
  induction n as [s|s|tag a cs IH] using Node_forall_ind; intros HC parent.
  - exists s. intros [|fuel] Hf; [lia | reflexivity].
  - exists []. intros [|fuel] Hf; [lia | reflexivity].
  - set (self0 := fun p c => processNode (S (Direct.height c)) rs p c).
    assert (Hself : forall f, (Direct.height (Element tag a cs) <= f)%nat ->
                      forall c, In c cs ->
                        processNode f rs (Some (Element tag a cs)) c
                        = self0 (Some (Element tag a cs)) c
                        /\ self0 (Some (Element tag a cs)) c <> None).
    { intros f Hf c Hc.
      destruct (proj1 (Forall_forall _ _) IH c Hc (Hclosed _ _ _ _ HC Hc)
                  (Some (Element tag a cs))) as [out Hout].
      pose proof (height_child tag a _ _ Hc) as Hh.
      unfold self0. rewrite !Hout by lia. split; [reflexivity|discriminate]. }
    assert (Hkids : exists content,
               forall f, (Direct.height (Element tag a cs) <= f)%nat ->
                         concatM (processNode f rs (Some (Element tag a cs))) cs
                         = Some content).
    { destruct (concatM (self0 (Some (Element tag a cs))) cs)
        as [content|] eqn:E.
      - exists content. intros f Hf. rewrite <- E. apply concatM_ext.
        intros c Hc. apply (Hself f Hf c Hc).
      - exfalso. revert E. apply concatM_returns.
        intros c Hc. apply (Hself _ (Nat.le_refl _) c Hc). }
    destruct Hkids as [content Hcontent].
    destruct (findMatchingRule rs parent (Element tag a cs))
      as [rule|] eqn:Hfind.
    + destruct (Hrs _ _ _ HC Hfind content parent (Element tag a cs))
        as [Hsame Hret].
      destruct (replacement rule (self0) content parent (Element tag a cs))
        as [out|] eqn:E.
      * exists out. intros [|f] Hf; [lia|]. cbn [processNode].
        rewrite Hfind, Hcontent by lia. rewrite <- E.
        apply Hsame. intros c Hc. apply (Hself f ltac:(lia) c Hc).
      * exfalso. revert E. apply Hret. intros c Hc.
        apply (Hself _ (Nat.le_refl _) c Hc).
    + exists content. intros [|f] Hf; [lia|]. cbn [processNode].
      rewrite Hfind. apply Hcontent. lia.
Qed.

Lemma findMatchingRule_in rs parent node rule :
  findMatchingRule rs parent node = Some rule ->
  In rule rs /\ matchesFilter parent node (filter rule) = true.
Proof.
  intros H. destruct (findMatchingRule_first _ _ _ H) as (b & a & -> & Hm & _).
  split; [|exact Hm]. apply in_or_app. right. now left.
Qed.

Lemma processNode_returns rs :
  Forall CallsBackOnChildren rs ->
  forall n parent,
    exists out,
      forall fuel, (Direct.height n < fuel)%nat ->
                   processNode fuel rs parent n = Some out.
Proof.
  intros Hrs n parent.
  apply (@processNode_returns_on (fun _ => True) rs); auto.
  intros p node rule _ H. apply findMatchingRule_in in H.
  exact (proj1 (Forall_forall _ _) Hrs rule (proj1 H)).
Qed.

Lemma forEachM_ext {A} (f g : nat -> A -> str -> option str) l :
  (forall i x acc, In x l -> f i x acc = g i x acc) ->
  forall i acc, forEachM f i l acc = forEachM g i l acc.
Proof.
  induction l as [|x l IH]; intros H i acc; [reflexivity|].
  cbn [forEachM]. rewrite (H i x acc) by now left.
  destruct (g i x acc); [|reflexivity].
  apply IH. intros j y acc' Hy. apply H. now right.
Qed.

Lemma forEachM_returns {A} (f : nat -> A -> str -> option str) l :
  (forall i x acc, In x l -> f i x acc <> None) ->
  forall i acc, forEachM f i l acc <> None.
Proof.
  induction l as [|x l IH]; intros H i acc; [discriminate|].
  cbn [forEachM]. destruct (f i x acc) eqn:E;
    [|exfalso; apply (H i x acc); [now left | exact E]].
  apply IH. intros j y acc' Hy. apply H. now right.
Qed.

Lemma directItems_children node item :
  In item (ListOutput.directItems node) -> In item (childNodes node).
Proof.
  unfold ListOutput.directItems, elementChildren. intros H.
  apply filter_In in H. destruct H as [H _].
  apply filter_In in H. now destruct H.
Qed.

Lemma list_calls_back_on_children nm f :
  CallsBackOnChildren (MkRule nm f list_replacement).
Proof.
  intros content parent node. cbn [replacement]. unfold list_replacement.
  fold (ListOutput.directItems node). split.
  - intros self1 self2 H.
    rewrite (@forEachM_ext _ _
               (fun index item result =>
                  out <- self2 (Some node) item ;;
                  Some (if isEmpty (trim out) then result
                        else result
                               ++ marker (str_eqb (nodeName node) (u "OL")) index
                               ++ trim out ++ NL))); [reflexivity|].
    intros i x acc Hx. now rewrite (H x (directItems_children _ _ Hx)).
  - intros self H.
    match goal with
    | |- context [forEachM ?g 0 ?l ?acc] =>
        pose proof (@forEachM_returns _ g l) as Hr;
        destruct (forEachM g 0 l acc) eqn:E
    end; [discriminate|].
    exfalso. revert E. apply Hr. intros i x acc Hx.
    destruct (self (Some node) x) eqn:Ex; [discriminate|].
    exfalso. exact (H x (directItems_children _ _ Hx) Ex).
Qed.

Ltac returns_some :=
  repeat first
    [ discriminate
    | match goal with
      | |- context [match ?x with _ => _ end] => destruct x
      end ].

Lemma defaultRules_call_back_on_children o :
  Forall CallsBackOnChildren (defaultRules o).
Proof.
  unfold defaultRules, initDefaultRules. cbn [addRule rules options].
  repeat apply Forall_cons; try apply Forall_nil;
    try apply list_calls_back_on_children;
    intros content parent node; cbn [replacement];
    (split; [intros self1 self2 _; reflexivity | intros self _]).
  - unfold listItem_replacement. discriminate.
  - unfold blockquote_replacement. discriminate.
  - unfold horizontalRule_replacement. discriminate.
  - unfold lineBreak_replacement. discriminate.
  - unfold codeBlock_replacement. discriminate.
  - unfold code_replacement. returns_some.
  - unfold image_replacement. returns_some.
  - unfold link_replacement. returns_some.
  - unfold emphasis_replacement. discriminate.
  - unfold strong_replacement. discriminate.
  - unfold heading_replacement. discriminate.
  - unfold paragraph_replacement. discriminate.
Qed.

(** The walk of a service with the default rules returns on every tree,
    whatever the options: a depth of the height of the tree plus one is
    enough, and the output is the same at every greater depth. *)
Theorem default_walk_returns o n parent :
  exists out,
    processNode (S (Direct.height n)) (defaultRules o) parent n = Some out
    /\ forall fuel, (Direct.height n < fuel)%nat ->
                    processNode fuel (defaultRules o) parent n = Some out.
Proof.
  destruct (processNode_returns (defaultRules_call_back_on_children o) n parent)
    as [out Hout].
  exists out. split; [apply Hout; lia | exact Hout].
Qed.

End WalkReturns.

Lemma default_walk_returns_witness :
  exists out,
    TurndownService.processNode (S (Direct.height nestedBullets))
      (defaultRules MarkdownConverter.initOptions) None nestedBullets
    = Some out
    /\ TurndownService.processNode 9
         (defaultRules MarkdownConverter.initOptions) None nestedBullets
       = Some out.
Proof.
  destruct (default_walk_returns MarkdownConverter.initOptions nestedBullets None)
    as (out & H1 & H2).
  exists out. split; [exact H1 | apply H2; vm_compute; lia].
Defined.

(* --------------------------------------------------------------------- *)
(** *** The walk of the converter returns *)
(* --------------------------------------------------------------------- *)

Section ConverterReturns.
Import TurndownService MarkdownConverter.

Ltac returns_some :=
  repeat first
    [ discriminate
    | match goal with
      | |- context [match ?x with _ => _ end] => destruct x
      end ].

Lemma in_descendants tag a cs d :
  In d (descendants (Element tag a cs)) <->
  exists c, In c cs /\ (d = c \/ In d (descendants c)).
Proof.
  cbn [descendants]. rewrite in_flat_map. split.
  - intros (c & Hc & [E|H]); exists c; auto.
  - intros (c & Hc & [E|H]); exists c; split; auto;
      [left; congruence | now right].
Qed.

Lemma height_descendant n d :
  In d (descendants n) -> (Direct.height d < Direct.height n)%nat.
Proof.
  induction n as [s|s|tag a cs IH] using Node_forall_ind; try (intros []).
  intros H. apply in_descendants in H. destruct H as (c & Hc & [->|H]).
  - now apply height_child.
  - pose proof (height_child tag a _ _ Hc).
    pose proof (proj1 (Forall_forall _ _) IH c Hc H). lia.
Qed.

Lemma descendants_trans n d x :
  In d (descendants n) -> In x (descendants d) -> In x (descendants n).
Proof.
  induction n as [s|s|tag a cs IH] using Node_forall_ind; try (intros []).
  intros H Hx. apply in_descendants in H. destruct H as (c & Hc & [->|H]).
  - apply in_descendants. exists c. auto.
  - apply in_descendants. exists c. split; [exact Hc|]. right.
    exact (proj1 (Forall_forall _ _) IH c Hc H Hx).
Qed.

Lemma LowerTagged_descendant n d :
  LowerTagged n -> In d (descendants n) -> LowerTagged d.
Proof.
  intros H Hd x [<-|Hx]; apply H; right; [exact Hd|].
  eapply descendants_trans; eassumption.
Qed.

Lemma descendants_removeAll tags n d' :
  In d' (descendants (removeAll tags n)) ->
  exists d, In d (descendants n) /\ d' = removeAll tags d.
Proof.
  induction n as [s|s|tag a cs IH] using Node_forall_ind;
    try (intros []).
  cbn [removeAll descendants].
  induction IH as [|c cs Hc _ IHcs]; [intros []|].
  cbn [flat_map]. destruct (hasTag tags c).
  - intros H. destruct (IHcs H) as (d & Hd & ->).
    exists d. split; [|reflexivity]. apply in_or_app. now right.
  - cbn [flat_map]. intros H. apply in_app_or in H.
    destruct H as [[<-|H]|H].
    + exists c. split; [now left | reflexivity].
    + destruct (Hc H) as (d & Hd & ->). exists d.
      split; [|reflexivity]. right. apply in_or_app. now left.
    + destruct (IHcs H) as (d & Hd & ->). exists d.
      split; [|reflexivity]. right. apply in_or_app. now right.
Qed.

Lemma lowerTag_removeAll tags d : lowerTag (removeAll tags d) <-> lowerTag d.
Proof. destruct d; reflexivity. Qed.

Lemma LowerTagged_removeAll tags n :
  LowerTagged n -> LowerTagged (removeAll tags n).
Proof.
  intros H d [<-|Hd].
  - apply lowerTag_removeAll, H. now left.
  - apply descendants_removeAll in Hd. destruct Hd as (d0 & Hd0 & ->).
    apply lowerTag_removeAll, H. now right.
Qed.

Lemma height_removeAll tags n :
  (Direct.height (removeAll tags n) <= Direct.height n)%nat.
Proof.
  induction n as [s|s|tag a cs IH] using Node_forall_ind; try apply Nat.le_refl.
  cbn [removeAll Direct.height]. apply le_n_S.
  induction IH as [|c cs Hc _ IHcs]; [apply Nat.le_refl|].
  destruct (hasTag tags c); cbn [fold_right]; lia.
Qed.

Lemma Plain_child tag a cs c : Plain (Element tag a cs) -> In c cs -> Plain c.
Proof.
  intros H Hc d [<-|Hd]; apply H; right; apply in_descendants; exists c; auto.
Qed.

Lemma Plain_not_list parent n :
  Plain n -> matchesFilter parent n listsFilter = false.
Proof.
  intros H. destruct (H n (or_introl eq_refl)) as [Hl Ht].
  destruct n as [s|s|tag a cs]; try reflexivity.
  cbn [matchesFilter listsFilter existsb nodeName].
  rewrite toLowerCase_toUpperCase. cbn [lowerTag] in Hl. rewrite Hl.
  cbn [hasTag listTags existsb] in Ht.
  change (toLowerCase (u "ul")) with (u "ul").
  change (toLowerCase (u "ol")) with (u "ol"). exact Ht.
Qed.

Variable reparse : list Node -> Node.
Hypothesis faithful : FaithfulRoundTrip reparse.

(** Every rule of the converter calls back on child nodes only, but the
    custom list rule. *)
Lemma converter_rules :
  Forall
    (fun rule =>
       (filter rule = listsFilter
        /\ replacement rule = improvedLists_replacement reparse)
       \/ CallsBackOnChildren rule)
    (rules (converter reparse)).
Proof.
  change (rules (converter reparse))
    with (rules
            (initCustomRules reparse
               (MkService (defaults initOptions)
                  (defaultRules (defaults initOptions))))).
  unfold initCustomRules. cbn [addRule rules options].
  repeat match goal with
         | |- Forall _ (_ :: _) => apply Forall_cons
         end;
    try exact (Forall_impl _ (fun r H => or_intror H)
                 (defaultRules_call_back_on_children (defaults initOptions)));
    try (left; split; reflexivity);
    right; intros content parent node; cbn [replacement];
    (split; [intros self1 self2 _; reflexivity | intros self _]).
  - unfold blockquotes_replacement. discriminate.
  - unfold underline_replacement. discriminate.
  - unfold strikethrough_replacement. discriminate.
  - unfold images_replacement. returns_some.
  - discriminate.
  - discriminate.
Qed.

Lemma converter_returns_on_plain n :
  Plain n ->
  forall parent,
    exists out,
      forall fuel, (Direct.height n < fuel)%nat ->
                   processNode fuel (rules (converter reparse)) parent n
                   = Some out.
Proof.
  apply processNode_returns_on; [exact Plain_child|].
  intros parent node rule Hplain Hfind.
  apply findMatchingRule_in in Hfind. destruct Hfind as [Hin Hmatch].
  destruct (proj1 (Forall_forall _ _) converter_rules rule Hin)
    as [[Hf _]|H]; [|exact H].
  rewrite Hf, (Plain_not_list parent Hplain) in Hmatch. discriminate.
Qed.

(** The [body] that [getTextContent] has converted is plain and no
    higher than the node of the list item. *)
Lemma item_body item :
  LowerTagged item ->
  let body :=
    reparse (childNodes
               (removeAll [u "ul"; u "ol"] (Element (u "div") [] [item]))) in
  Plain body /\ (Direct.height body <= S (Direct.height item))%nat.
Proof.
  intros Hitem body.
  assert (Hdiv : LowerTagged (Element (u "div") [] [item])).
  { intros d [<-|Hd]; [reflexivity|].
    apply in_descendants in Hd. destruct Hd as (c & [<-|[]] & [->|Hd]).
    - apply Hitem. now left.
    - apply Hitem. now right. }
  pose proof (LowerTagged_removeAll listTags Hdiv) as Hlow.
  pose proof (removeAll_leaves_none listTags (Element (u "div") [] [item]))
    as Hnone.
  pose proof (height_removeAll listTags (Element (u "div") [] [item])) as Hh.
  change (removeAll listTags (Element (u "div") [] [item]))
    with (Element (u "div") []
            (childNodes
               (removeAll [u "ul"; u "ol"] (Element (u "div") [] [item]))))
    in Hlow, Hnone, Hh.
  split.
  - apply (roundTrip_plain faithful); assumption.
  - pose proof (roundTrip_height faithful
                  (childNodes
                     (removeAll [u "ul"; u "ol"]
                        (Element (u "div") [] [item])))) as Hb.
    fold body in Hb.
    assert (Hi : Direct.height (Element (u "div") [] [item])
                 = S (Direct.height item))
      by (cbn [Direct.height fold_right]; now rewrite Nat.max_0_r).
    rewrite Hi in Hh. lia.
Qed.

Lemma convertList_returns (self : Self) node f :
  LowerTagged node ->
  (Direct.height node < f)%nat ->
  (forall p n, Plain n -> (Direct.height n < f)%nat -> self p n <> None) ->
  convertList reparse self node <> None.
Proof.
  intros Hlow Hf Hself. unfold convertList.
  destruct (querySelectorAll [u "li"] node) as [|i0 items] eqn:E;
    [discriminate|].
  match goal with
  | |- context [forEachM ?g 0 ?l ?acc] =>
      pose proof (@forEachM_returns _ g l) as Hr;
      destruct (forEachM g 0 l acc) eqn:E'
  end; [discriminate|].
  exfalso. revert E'. apply Hr. intros i item acc Hitem.
  rewrite <- E in Hitem. unfold querySelectorAll in Hitem.
  apply filter_In in Hitem. destruct Hitem as [Hitem _].
  unfold getTextContent, turndownInner.
  destruct (item_body (LowerTagged_descendant Hlow Hitem)) as [Hplain Hh].
  pose proof (height_descendant _ _ Hitem) as Hd.
  cbn [removeAll] in *.
  match goal with
  | |- context [self ?p ?b] =>
      destruct (self p b) eqn:Es; [discriminate|];
      exfalso; revert Es; apply Hself; [exact Hplain | lia]
  end.
Qed.

Lemma converter_returns_on_lower n :
  LowerTagged n ->
  forall parent fuel,
    (Direct.height n + 2 <= fuel)%nat ->
    exists out,
      processNode fuel (rules (converter reparse)) parent n = Some out.
Proof.
  induction n as [s|s|tag a cs IH] using Node_forall_ind;
    intros Hlow parent fuel Hf.
  - destruct fuel; [lia|]. now exists s.
  - destruct fuel; [lia|]. now exists [].
  - destruct fuel as [|f]; [lia|].
    assert (Hkids : forall c, In c cs ->
              processNode f (rules (converter reparse))
                (Some (Element tag a cs)) c <> None).
    { intros c Hc.
      assert (Hlc : LowerTagged c).
      { apply (LowerTagged_descendant Hlow). apply in_descendants.
        exists c. auto. }
      pose proof (height_child tag a _ _ Hc) as Hh.
      destruct (proj1 (Forall_forall _ _) IH c Hc Hlc
                  (Some (Element tag a cs)) f ltac:(lia)) as [out ->].
      discriminate. }
    cbn [processNode].
    destruct (concatM _ cs) as [content|] eqn:Econtent;
      [|exfalso; revert Econtent; now apply concatM_returns].
    destruct (findMatchingRule _ parent (Element tag a cs))
      as [rule|] eqn:Hfind; [|now exists content].
    apply findMatchingRule_in in Hfind. destruct Hfind as [Hin _].
    destruct (replacement rule _ content parent (Element tag a cs))
      as [out|] eqn:E; [now exists out|].
    exfalso. revert E.
    destruct (proj1 (Forall_forall _ _) converter_rules rule Hin)
      as [[_ Hrep]|H].
    + rewrite Hrep. unfold improvedLists_replacement.
      apply (@convertList_returns _ _ f Hlow); [lia|].
      intros p body Hplain Hh.
      destruct (converter_returns_on_plain Hplain p) as [out Hout].
      rewrite (Hout f Hh). discriminate.
    + apply (proj2 (H content parent (Element tag a cs))). exact Hkids.
Qed.

(** On a host with a faithful round trip the walk of the converter
    returns on every tree in lower-case tags, nested lists included: a
    depth of the height of the tree plus two is enough. *)
Theorem converter_walk_returns n :
  LowerTagged n ->
  forall parent fuel,
    (Direct.height n + 2 <= fuel)%nat ->
    exists out,
      processNode fuel (rules (converter reparse)) parent n = Some out.
Proof. exact (@converter_returns_on_lower n). Qed.

End ConverterReturns.

(** The host that reads back what it wrote has a faithful round trip. *)
Lemma roundTrip_faithful : FaithfulRoundTrip Examples.roundTrip.
Proof.
  split.
  - intros cs Hlow Hnone d [<-|Hd].
    + split; reflexivity.
    + change (descendants (Examples.roundTrip cs))
        with (descendants (Element (u "div") [] cs)) in Hd.
      split; [apply Hlow; now right|].
      exact (filter_nil_forall _ _ Hnone d Hd).
  - intros cs. apply Nat.le_refl.
Qed.

Lemma converter_walk_returns_witness :
  exists out,
    TurndownService.processNode 6
      (TurndownService.rules (MarkdownConverter.converter Examples.roundTrip))
      None nestedBullets
    = Some out.
Proof.
  apply (converter_walk_returns roundTrip_faithful).
  - intros d Hd. vm_compute in Hd.
    repeat (destruct Hd as [<-|Hd]; [reflexivity|]). destruct Hd.
  - vm_compute. lia.
Defined.

(* --------------------------------------------------------------------- *)
(** *** [convert] fulfils *)
(* --------------------------------------------------------------------- *)

Section ConvertFulfils.
Import TurndownService MarkdownConverter.

Lemma lowerTag_mapText f d : lowerTag (mapText f d) <-> lowerTag d.
Proof. destruct d; reflexivity. Qed.

Lemma lowerTag_removeEmptyBlocks d :
  lowerTag (removeEmptyBlocks d) <-> lowerTag d.
Proof. destruct d; reflexivity. Qed.

Lemma LowerTagged_mapText f n : LowerTagged n -> LowerTagged (mapText f n).
Proof.
  intros H d [<-|Hd].
  - apply lowerTag_mapText, H. now left.
  - rewrite descendants_mapText in Hd. apply in_map_iff in Hd.
    destruct Hd as (d0 & <- & Hd0). apply lowerTag_mapText, H. now right.
Qed.

Lemma LowerTagged_removeEmptyBlocks n :
  LowerTagged n -> LowerTagged (removeEmptyBlocks n).
Proof.
  intros H d [<-|Hd].
  - apply lowerTag_removeEmptyBlocks, H. now left.
  - apply descendants_removeEmptyBlocks in Hd.
    destruct Hd as (d0 & Hd0 & ->).
    apply lowerTag_removeEmptyBlocks, H. now right.
Qed.

Variable reparse : list Node -> Node.
Variable parseFragment : str -> list Node.
Variable now : str.
Variable percent2 : nat -> nat -> str.

Hypothesis faithful : FaithfulRoundTrip reparse.
Hypothesis parser_lower :
  forall html, LowerTagged (Element (u "div") [] (parseFragment html)).
Hypothesis reparse_lower :
  forall cs, LowerTagged (Element (u "div") [] cs) -> LowerTagged (reparse cs).

Lemma preProcessHtml_lower html :
  LowerTagged (Element (u "div") [] (preProcessHtml parseFragment html)).
Proof.
  unfold preProcessHtml.
  match goal with
  | |- LowerTagged (Element _ _ (childNodes ?t)) =>
      change (LowerTagged t)
  end.
  apply LowerTagged_removeEmptyBlocks, LowerTagged_mapText,
    LowerTagged_removeAll, parser_lower.
Qed.

(** On a host whose parsers give lower-case tags and whose round trip
    is faithful, [convert] fulfils on every non-empty string once the
    depth allowed is the height of the parsed body plus two: the input
    check is the only way it rejects. *)
Theorem convert_fulfils fuel c html meta :
  (Direct.height (reparse (preProcessHtml parseFragment (c :: html))) + 2
   <= fuel)%nat ->
  exists result,
    convert reparse parseFragment now percent2 fuel (VStr (c :: html)) meta
    = Some (Normal result,
            [ConsoleLog (u "Starting HTML to Markdown conversion...");
             ConsoleLog (u "Conversion completed successfully")]).
Proof.
  intros Hf.
  destruct (@converter_returns_on_lower reparse faithful
              (reparse (preProcessHtml parseFragment (c :: html)))
              (reparse_lower (preProcessHtml_lower (c :: html)))
              (Some (documentElement
                       (reparse (preProcessHtml parseFragment (c :: html)))))
              fuel Hf) as [out Hout].
  destruct (@convert_accepts_non_empty_string reparse parseFragment now
              percent2 fuel c html meta (trim out)) as [metadata Hm].
  { unfold turndown. now rewrite Hout. }
  eexists. exact Hm.
Qed.

End ConvertFulfils.

Lemma convert_fulfils_witness :
  exists result,
    MarkdownConverter.convert Examples.roundTrip parsesToParagraph fixedClock
      fixedPercent 4 (VStr (u "<p>hi</p>")) []
    = Some (Normal result,
            [MarkdownConverter.ConsoleLog
               (u "Starting HTML to Markdown conversion...");
             MarkdownConverter.ConsoleLog
               (u "Conversion completed successfully")]).
Proof.
  apply (@convert_fulfils Examples.roundTrip parsesToParagraph fixedClock
           fixedPercent roundTrip_faithful).
  - intros html d Hd. vm_compute in Hd.
    repeat (destruct Hd as [<-|Hd]; [reflexivity|]). destruct Hd.
  - intros cs H d [<-|Hd]; [reflexivity|]. apply H. right. exact Hd.
  - vm_compute. lia.
Defined.

(* --------------------------------------------------------------------- *)
(** *** Images, and the caller of [convert] *)
(* --------------------------------------------------------------------- *)

Section Images.
Import TurndownService MarkdownConverter.

Variable reparse : list Node -> Node.

(** An image is converted by the custom rule, not by the default one:
    its alternative text is never empty, the placeholder standing in
    for a missing or empty [alt]; without a [src] only the bracketed
    text is left. *)
Theorem image_alt_never_empty fuel parent attrs :
  exists alt,
    alt <> []
    /\ (lookupAttr (u "alt") attrs = Some alt \/ alt = imagePlaceholder)
    /\ processNode (S fuel) (rules (converter reparse)) parent
         (Element (u "img") attrs [])
       = Some (match lookupAttr (u "src") attrs with
               | Some (c :: src) =>
                   u "![" ++ alt ++ u "](" ++ (c :: src)
                     ++ titlePart (lookupAttr (u "title") attrs) ++ u ")"
               | _ => u "[" ++ alt ++ u "]"
               end).
Proof.
  exists (attrOr (u "alt") imagePlaceholder (Element (u "img") attrs [])).
  split; [|split].
  - unfold attrOr. cbn [getAttribute].
    destruct (lookupAttr (u "alt") attrs) as [[|c alt]|]; discriminate.
  - unfold attrOr. cbn [getAttribute].
    destruct (lookupAttr (u "alt") attrs) as [[|c alt]|]; auto.
  - cbn [processNode concatM].
    assert (Hfind : findMatchingRule (rules (converter reparse)) parent
                      (Element (u "img") attrs [])
                    = Some (MkRule (u "images") (FTag (u "img"))
                              images_replacement))
      by reflexivity.
    rewrite Hfind. cbn [replacement]. unfold images_replacement, attrOr.
    cbn [getAttribute].
    destruct (lookupAttr (u "src") attrs) as [[|c src]|]; try reflexivity.
    cbn [isEmpty]. do 5 f_equal. unfold titlePart.
    destruct (lookupAttr (u "title") attrs) as [[|t title]|]; reflexivity.
Qed.

End Images.

Section Caller.
Import TurndownService MarkdownConverter ContentSelector.

Variable reparse : list Node -> Node.
Variable parseFragment : str -> list Node.
Variable now : str.
Variable percent2 : nat -> nat -> str.

(** When the converter can be constructed, [handleMarkdownConversion]
    hands on the outcome of [convert] as it is, a rejection included:
    the completion notice is shown all the same, no failure notice is
    shown, and the error is not wrapped a second time.  An empty
    selection is rejected with the message of [convert] itself. *)
Theorem handleMarkdownConversion_passes_outcome_on
  hasNotifier fuel data outcome console :
  convert reparse parseFragment now percent2 fuel
    (ContentSelector.html data) (ContentSelector.metadata data)
  = Some (outcome, console) ->
  exists events,
    handleMarkdownConversion reparse parseFragment now percent2
      true hasNotifier fuel data
    = Some (outcome, events)
    /\ (hasNotifier = true -> In (Notify Success converted) events)
    /\ (forall msg, ~ In (Notify Failure msg) events).
Proof.
  intros H. unfold handleMarkdownConversion. rewrite H. cbn [fst snd].
  eexists. split; [reflexivity|]. split.
  - intros ->. cbn [app In]. right. right. apply in_or_app. right.
    now left.
  - intros msg Hin.
    destruct hasNotifier; cbn [app In] in Hin;
      repeat (destruct Hin as [Hin|Hin]; [discriminate Hin|]);
      apply in_app_or in Hin; destruct Hin as [Hin|Hin];
      try (apply in_map_iff in Hin; destruct Hin as (e & E & _);
           discriminate E);
      cbn [app In] in Hin;
      repeat (destruct Hin as [Hin|Hin]; [discriminate Hin|]);
      exact Hin.
Qed.

End Caller.

Lemma handleMarkdownConversion_passes_outcome_on_witness :
  exists events,
    ContentSelector.handleMarkdownConversion Examples.roundTrip
      parsesToParagraph fixedClock fixedPercent true true 0
      (ContentSelector.MkSelected (VStr []) [])
    = Some (Throw (MkError (u "Error")
                     (MarkdownConverter.failurePrefix
                        ++ u "Invalid HTML input")),
            events)
    /\ (true = true ->
        In (ContentSelector.Notify ContentSelector.Success
              ContentSelector.converted) events)
    /\ (forall msg,
           ~ In (ContentSelector.Notify ContentSelector.Failure msg) events).
Proof.
  apply (@handleMarkdownConversion_passes_outcome_on Examples.roundTrip
           parsesToParagraph fixedClock fixedPercent true 0
           (ContentSelector.MkSelected (VStr []) [])
           _
           [MarkdownConverter.ConsoleLog
              (u "Starting HTML to Markdown conversion...");
            MarkdownConverter.ConsoleError (u "Markdown conversion failed:")
              (MkError (u "Error") (u "Invalid HTML input"))]).
  reflexivity.
Defined.

(* --------------------------------------------------------------------- *)
(** *** The report of [validateMarkdown] *)
(* --------------------------------------------------------------------- *)

Section Report.
Import RegExp Direct Validation.

Lemma search_sound ml r fuel :
  forall b a caps s0 e,
    search fuel ml r (MState b a caps) = Some (s0, e) ->
    exists l rest,
      a = l ++ rest
      /\ s0 = MState (advance l b) rest caps
      /\ matchAt ml r s0 = Some e.
Proof.
  induction fuel as [|fuel IH]; intros b a caps s0 e; cbn [search].
  - destruct (matchAt ml r (MState b a caps)) as [e'|] eqn:E; [|discriminate].
    intros H. injection H as <- <-. exists [], a. auto.
  - destruct (matchAt ml r (MState b a caps)) as [e'|] eqn:E.
    + intros H. injection H as <- <-. exists [], a. auto.
    + unfold step. cbn [after before captures].
      destruct a as [|c a]; [discriminate|]. intros H.
      destruct (IH _ _ _ _ _ H) as (l & rest & -> & -> & Hm).
      exists (c :: l), rest. repeat split; [|exact Hm].
      unfold advance. cbn [rev]. now rewrite <- app_assoc.
Qed.

Lemma search_complete ml r l :
  forall fuel b rest caps,
    (List.length (l ++ rest) <= fuel)%nat ->
    matchAt ml r (MState (advance l b) rest caps) <> None ->
    search fuel ml r (MState b (l ++ rest) caps) <> None.
Proof.
  induction l as [|c l IH]; intros fuel b rest caps Hf Hm.
  - cbn [app]. change (advance [] b) with b in Hm.
    destruct fuel; cbn [search];
      destruct (matchAt ml r (MState b rest caps)); congruence.
  - destruct fuel as [|fuel]; [simpl in Hf; lia|].
    cbn [search app].
    destruct (matchAt ml r (MState b (c :: l ++ rest) caps));
      [discriminate|].
    unfold step. cbn [after before captures].
    apply IH; [simpl in Hf; lia|].
    replace (advance l (c :: b)) with (advance (c :: l) b); [exact Hm|].
    unfold advance. cbn [rev]. now rewrite <- app_assoc.
Qed.

(** Where a pattern preceded by one literal matches, the pattern alone
    matches one code unit further. *)
Lemma test_after_literal c r input :
  test (Seq (lit c) r) input = true -> test r input = true.
Proof.
  unfold test, matchFirst, exec, start. cbn [after].
  destruct (search _ false (Seq (lit c) r) _) as [[s0 e]|] eqn:E;
    [|discriminate].
  intros _. apply search_sound in E.
  destruct E as (l & rest & -> & -> & Hm).
  unfold matchAt in Hm. cbn [before after rmatch lit] in Hm.
  destruct rest as [|x rest]; [discriminate|].
  destruct (c =? x); [|discriminate].
  cbn [captures] in Hm.
  assert (Hr : matchAt false r (MState (advance (l ++ [x]) []) rest []) <> None).
  { unfold matchAt. cbn [before after].
    replace (advance (l ++ [x]) []) with (x :: advance l []);
      [now rewrite Hm|].
    unfold advance. now rewrite rev_app_distr. }
  pose proof (@search_complete false r (l ++ [x])
                (List.length (l ++ x :: rest)) [] rest []) as Hc.
  rewrite <- app_assoc in Hc. cbn [app] in Hc.
  destruct (search _ false r _) as [[s0 s1]|]; [reflexivity|].
  exfalso. now apply Hc.
Qed.

Lemma split_count sep s :
  List.length (split sep s) = S (count_occ N.eq_dec s sep).
Proof.
  induction s as [|c s IH]; [reflexivity|].
  cbn [split count_occ]. destruct (N.eqb_spec c sep) as [->|Hne].
  - destruct (N.eq_dec sep sep); [|congruence]. cbn [List.length].
    now rewrite IH.
  - destruct (N.eq_dec c sep); [congruence|].
    destruct (split sep s); simpl in *; lia.
Qed.

(** The report never says invalid; it counts one line more than the
    text has newlines; its warnings are among the three the function
    knows, and the warning of an empty image link never comes without
    the warning of an empty link. *)
Theorem validateMarkdown_report markdown :
  isValid (validateMarkdown markdown) = true
  /\ lines (stats (validateMarkdown markdown))
     = S (count_occ N.eq_dec markdown LF)
  /\ (forall w, In w (warnings (validateMarkdown markdown)) ->
                In w [undefinedWarning; emptyLinkWarning; emptyImageWarning])
  /\ (In emptyImageWarning (warnings (validateMarkdown markdown)) ->
      In emptyLinkWarning (warnings (validateMarkdown markdown))).
Proof.
  split; [reflexivity|]. split; [apply split_count|].
  unfold validateMarkdown. cbn [warnings]. unfold pushIf.
  pose proof (@test_after_literal BANG reEmptyLink markdown) as Himg.
  fold reEmptyImage in Himg.
  destruct (includes (u "undefined") markdown);
    destruct (test reEmptyImage markdown);
    try (rewrite Himg by reflexivity);
    destruct (test reEmptyLink markdown);
    try discriminate (Himg eq_refl);
    cbn [app]; split;
    try (intros w Hw; simpl in Hw |- *; tauto);
    intros Hin; simpl in Hin |- *;
    repeat (destruct Hin as [Hin|Hin]; try discriminate Hin);
    tauto.
Qed.

End Report.

Lemma validateMarkdown_report_witness :
  In Validation.emptyLinkWarning
    (Validation.warnings (Validation.validateMarkdown (u "![c]()"))).
Proof.
  apply (proj2 (proj2 (proj2 (validateMarkdown_report (u "![c]()"))))).
  vm_compute. auto.
Defined.

(* --------------------------------------------------------------------- *)
(** *** File names *)
(* --------------------------------------------------------------------- *)

Section FileNames.
Import RegExp Direct FileHandler.

Lemma matchAt_plus ml p b a caps :
  matchAt ml (plus (Chr p)) (MState b a caps)
  = if isEmpty (takeWhile p a) then None
    else Some (MState (advance (takeWhile p a) b) (dropWhile p a) []).
Proof.
  unfold matchAt. cbn [before after].
  now rewrite rmatch_plus_run by discriminate.
Qed.

Lemma search_plus ml p a :
  forall b caps fuel,
    (List.length a <= fuel)%nat ->
    search fuel ml (plus (Chr p)) (MState b a caps)
    = match findFirst p a with
      | Some (l, c, r) =>
          Some (MState (advance l b) (c :: r) caps,
                MState (advance (takeWhile p (c :: r)) (advance l b))
                  (dropWhile p (c :: r)) [])
      | None => None
      end.
Proof.
  induction a as [|c a IH]; intros b caps fuel Hf.
  - destruct fuel; reflexivity.
  - destruct fuel as [|fuel]; [simpl in Hf; lia|].
    cbn [search findFirst]. rewrite matchAt_plus.
    cbn [takeWhile dropWhile]. destruct (p c) eqn:Hp;
      [cbn [isEmpty takeWhile dropWhile]; rewrite !Hp; reflexivity|].
    cbn [isEmpty step after before captures].
    rewrite IH by (simpl in Hf; lia).
    destruct (findFirst p a) as [[[l x] r]|]; [|reflexivity].
    unfold advance. cbn [rev]. now rewrite <- !app_assoc.
Qed.

Lemma squeeze_true p rep r :
  squeeze p rep true r = squeeze p rep false (dropWhile p r).
Proof.
  induction r as [|c r IH]; [reflexivity|].
  cbn [squeeze dropWhile]. destruct (p c) eqn:Hp; [exact IH|].
  cbn [squeeze]. now rewrite Hp.
Qed.

Lemma squeeze_first p rep a :
  squeeze p rep false a
  = match findFirst p a with
    | Some (l, c, r) => l ++ rep ++ squeeze p rep true r
    | None => a
    end.
Proof.
  induction a as [|c a IH]; [reflexivity|].
  cbn [squeeze findFirst]. destruct (p c); [reflexivity|].
  rewrite IH. destruct (findFirst p a) as [[[l x] r]|]; reflexivity.
Qed.

Lemma dropWhile_length p r :
  (List.length (dropWhile p r) <= List.length r)%nat.
Proof.
  induction r as [|c r IH]; [apply Nat.le_refl|].
  cbn [dropWhile]. destruct (p c); simpl; lia.
Qed.

(** Replacing every run of a class by a constant. *)
Lemma replaceLoop_plus p rep fuel :
  forall b a caps,
    (List.length a <= fuel)%nat ->
    replaceLoop fuel false (plus (Chr p)) (constant rep) [] (MState b a caps)
    = squeeze p rep false a.
Proof.
  induction fuel as [|fuel IH]; intros b a caps Hf.
  - destruct a; [reflexivity | simpl in Hf; lia].
  - cbn [replaceLoop]. unfold exec. cbn [after].
    rewrite search_plus by lia. rewrite squeeze_first.
    destruct (findFirst p a) as [[[l x] r]|] eqn:E; [|reflexivity].
    destruct (@findFirst_some p (constant rep) _ _ _ _ E) as (-> & Hx & _).
    rewrite !between_advance. cbn [takeWhile dropWhile]. rewrite Hx.
    cbn [isEmpty captures app]. unfold constant at 1.
    rewrite IH.
    + now rewrite squeeze_true, <- app_assoc.
    + pose proof (dropWhile_length p r). rewrite length_app in Hf.
      simpl in Hf. lia.
Qed.

Lemma replaceAll_plus p rep input :
  replaceAll false (plus (Chr p)) (constant rep) input
  = squeeze p rep false input.
Proof. unfold replaceAll, start. apply replaceLoop_plus. lia. Qed.

Lemma squeeze_members p rep inRun s c :
  In c (squeeze p rep inRun s) -> In c rep \/ (In c s /\ p c = false).
Proof.
  revert inRun. induction s as [|x s IH]; intros inRun; [intros []|].
  cbn [squeeze]. destruct (p x) eqn:Hx.
  - intros H. apply in_app_or in H. destruct H as [H|H].
    + destruct inRun; [destruct H | now left].
    + destruct (IH _ H) as [?|[? ?]]; [now left | right; split; auto].
      now right.
  - intros [<-|H]; [right; split; auto; now left|].
    destruct (IH _ H) as [?|[? ?]]; [now left | right; split; auto].
    now right.
Qed.

Lemma firstn_sub {A} n (l : list A) c : In c (firstn n l) -> In c l.
Proof.
  intros H. rewrite <- (firstn_skipn n l). apply in_or_app. now left.
Qed.

Lemma decimal_digits n c : In c (decimal n) -> isDigit c = true.
Proof.
  unfold decimal.
  generalize (Nat.to_uint n). intros d.
  induction d; cbn; intros H; try destruct H as [<-|H];
    try reflexivity; auto; destruct H.
Qed.

Lemma safe_literal s :
  forallb (fun c => negb (unsafeChar c) && negb (isSpace c)) s = true ->
  forall c, In c s -> safeChar c.
Proof.
  intros H c Hc. rewrite forallb_forall in H. specialize (H c Hc).
  apply andb_prop in H. destruct H as [H1 H2].
  apply negb_true_iff in H1. apply negb_true_iff in H2. now split.
Qed.

Lemma safe_title t c :
  In c (firstn 50
          (replaceAll false reSpaces (constant (u "_"))
             (replaceAll false reUnsafe (constant (u "_")) t))) ->
  safeChar c.
Proof.
  intros H. apply firstn_sub in H.
  unfold reSpaces in H. rewrite replaceAll_plus in H.
  apply squeeze_members in H. destruct H as [H|[H Hs]].
  - apply (safe_literal (u "_")); [reflexivity | exact H].
  - split; [|exact Hs].
    unfold reUnsafe, oneOf in H. rewrite replaceAll_Chr in H.
    apply in_flat_map in H. destruct H as (x & _ & Hx).
    fold (unsafeChar x) in Hx. destruct (unsafeChar x) eqn:E.
    + apply (safe_literal (u "_")); [reflexivity | exact Hx].
    + destruct Hx as [<-|[]]. exact E.
Qed.

Lemma safe_timestamp iso c :
  (forall x, In x iso -> isoChar x = true) ->
  In c (replaceAll false reTimeSep (constant (u "-")) (firstn 19 iso)) ->
  safeChar c.
Proof.
  intros Hiso H. unfold reTimeSep, oneOf in H. rewrite replaceAll_Chr in H.
  apply in_flat_map in H. destruct H as (x & Hx & Hc).
  apply firstn_sub in Hx. specialize (Hiso x Hx).
  destruct (existsb (N.eqb x) [84; 58]) eqn:E.
  - apply (safe_literal (u "-")); [reflexivity | exact Hc].
  - destruct Hc as [<-|[]]. unfold isoChar in Hiso.
    apply orb_prop in Hiso. destruct Hiso as [Hd|Hl].
    + unfold isDigit in Hd. apply andb_prop in Hd. destruct Hd as [H1 H2].
      apply N.leb_le in H1. apply N.leb_le in H2.
      split; unfold unsafeChar, unsafeChars, isSpace, isLineTerminator;
        cbn [existsb];
        repeat (apply orb_false_intro);
        try reflexivity; try (apply N.eqb_neq; lia);
        apply andb_false_iff; left; apply N.leb_gt; lia.
    + cbn [existsb u List.map list_ascii_of_string] in Hl.
      cbn [existsb] in E.
      repeat (apply orb_prop in Hl; destruct Hl as [Hl|Hl]);
        try discriminate Hl;
        apply N.eqb_eq in Hl; subst x; try discriminate E;
        split; reflexivity.
Qed.

Lemma timestamp_length iso :
  (List.length (replaceAll false reTimeSep (constant (u "-")) (firstn 19 iso))
   <= 19)%nat.
Proof.
  unfold reTimeSep, oneOf. rewrite replaceAll_Chr.
  assert (H : forall l : str,
             List.length
               (flat_map
                  (fun c => if existsb (N.eqb c) [84; 58]
                            then constant (u "-") [c] [] else [c]) l)
             = List.length l).
  { induction l as [|c l IH]; [reflexivity|]. cbn [flat_map].
    rewrite length_app, IH.
    destruct (existsb (N.eqb c) [84; 58]); reflexivity. }
  rewrite H. apply firstn_le_length.
Qed.

(** A generated file name ends in [.md] and holds no white space and
    none of the characters the function replaces, whatever the title
    is, when the clock gives an ISO date string; for a title that is a
    string, or missing, it is at most 73 code units long. *)
Theorem generateFileName_is_safe isoNow dateNow title :
  (forall c, In c isoNow -> isoChar c = true) ->
  (exists stem, stem <> []
                /\ generateFileName isoNow dateNow title = stem ++ u ".md")
  /\ (forall c, In c (generateFileName isoNow dateNow title) ->
                unsafeChar c = false /\ isSpace c = false)
  /\ (truthy title = false \/ isString title = true ->
      (List.length (generateFileName isoNow dateNow title) <= 73)%nat).
Proof.
  intros Hiso. unfold generateFileName.
  set (timestamp := replaceAll false reTimeSep (constant (u "-"))
                      (firstn 19 isoNow)).
  assert (Hts : forall c, In c timestamp -> safeChar c)
    by (intros c; apply safe_timestamp; exact Hiso).
  assert (Hfallback :
            forall c, In c (u "WebtoMD_Export_" ++ decimal dateNow ++ u ".md") ->
                      safeChar c).
  { intros c H. apply in_app_or in H. destruct H as [H|H];
      [apply (safe_literal (u "WebtoMD_Export_")); [reflexivity | exact H]|].
    apply in_app_or in H. destruct H as [H|H];
      [|apply (safe_literal (u ".md")); [reflexivity | exact H]].
    apply decimal_digits in H. unfold isDigit in H.
    apply andb_prop in H. destruct H as [H1 H2].
    apply N.leb_le in H1. apply N.leb_le in H2.
    split; unfold unsafeChar, unsafeChars, isSpace, isLineTerminator;
      cbn [existsb];
      repeat (apply orb_false_intro);
      try reflexivity; try (apply N.eqb_neq; lia);
      apply andb_false_iff; left; apply N.leb_gt; lia. }
  assert (Hname :
            forall t, (forall c, In c t -> safeChar c) ->
                      forall c, In c (t ++ u "_" ++ timestamp ++ u ".md") ->
                                safeChar c).
  { intros t Ht c H. apply in_app_or in H. destruct H as [H|H]; [now apply Ht|].
    apply in_app_or in H. destruct H as [H|H];
      [apply (safe_literal (u "_")); [reflexivity | exact H]|].
    apply in_app_or in H. destruct H as [H|H]; [now apply Hts|].
    apply (safe_literal (u ".md")); [reflexivity | exact H]. }
  destruct (jsOr title (VStr (u "WebtoMD"))) as [| |b|z|t|] eqn:Eor;
    try (split; [exists (u "WebtoMD_Export_" ++ decimal dateNow);
                 split; [discriminate | now rewrite <- app_assoc]
                |split; [exact Hfallback|]];
         intros [Hf|Hs]; unfold jsOr in Eor;
         [rewrite Hf in Eor; discriminate Eor
         |destruct title; try discriminate Hs;
          destruct (truthy _); discriminate Eor]).
  set (cleaned := firstn 50 _).
  set (pageTitle := if isEmpty cleaned || str_eqb cleaned (u "_")
                    then u "WebtoMD_Export" else cleaned).
  assert (Hsafe : forall c, In c pageTitle -> safeChar c).
  { intros c H. unfold pageTitle in H.
    destruct (isEmpty cleaned || str_eqb cleaned (u "_")).
    - apply (safe_literal (u "WebtoMD_Export")); [reflexivity | exact H].
    - exact (safe_title _ _ H). }
  assert (Hlen : (0 < List.length pageTitle <= 50)%nat).
  { unfold pageTitle. destruct (isEmpty cleaned) eqn:E; cbn [orb].
    - simpl. lia.
    - destruct (str_eqb cleaned (u "_")); [simpl; lia|].
      split; [destruct cleaned; [discriminate | simpl; lia]|].
      apply firstn_le_length. }
  split; [|split].
  - exists (pageTitle ++ u "_" ++ timestamp). split.
    + destruct pageTitle; [simpl in Hlen; lia | discriminate].
    + now rewrite <- !app_assoc.
  - exact (Hname pageTitle Hsafe).
  - intros _. rewrite !length_app.
    pose proof (timestamp_length isoNow) as Ht. fold timestamp in Ht.
    change (List.length (u "_")) with 1%nat.
    change (List.length (u ".md")) with 3%nat. lia.
Qed.

End FileNames.

Lemma generateFileName_is_safe_witness :
  (exists stem,
      stem <> []
      /\ FileHandler.generateFileName fixedClock 0 (VStr (u "a: b"))
         = stem ++ u ".md")
  /\ (forall c,
         In c (FileHandler.generateFileName fixedClock 0 (VStr (u "a: b"))) ->
         FileHandler.unsafeChar c = false /\ isSpace c = false)
  /\ (truthy (VStr (u "a: b")) = false \/ isString (VStr (u "a: b")) = true ->
      (List.length
         (FileHandler.generateFileName fixedClock 0 (VStr (u "a: b")))
       <= 73)%nat).
Proof.
  apply generateFileName_is_safe.
  intros c Hc. vm_compute in Hc.
  repeat (destruct Hc as [<-|Hc]; [reflexivity|]). destruct Hc.
Defined.

(* --------------------------------------------------------------------- *)
(** *** The normalizer on plain text *)
(* --------------------------------------------------------------------- *)

Section PlainText.
Import RegExp MarkdownConverter.

Variable P : N -> bool.

Lemma Dead_step b c rest caps b' caps' :
  Dead P (MState b (c :: rest) caps) -> Dead P (MState b' rest caps').
Proof. intros H x Hx. apply H. now right. Qed.

Lemma repeatMatcher_dead (m : Cont -> mstate -> option mstate) greedy k :
  (forall k' s, Dead P s -> (forall s', Dead P s' -> k' s' = None) ->
                m k' s = None) ->
  (forall s', Dead P s' -> k s' = None) ->
  forall fuel lo hi s,
    Dead P s -> repeatMatcher m greedy k fuel lo hi s = None.
Proof.
  intros Hm Hk. induction fuel as [|fuel IH]; intros lo hi s Hs;
    [reflexivity|].
  cbn [repeatMatcher]. rewrite (Hk s Hs).
  assert (Hiter :
            m (fun s' =>
                 if Nat.eqb lo 0 && Nat.eqb (pos s') (pos s) then None
                 else repeatMatcher m greedy k fuel (pred lo) (decHi hi) s') s
            = None).
  { apply Hm; [exact Hs|]. intros s' Hs'.
    destruct (Nat.eqb lo 0 && Nat.eqb (pos s') (pos s)); [reflexivity|].
    now apply IH. }
  rewrite Hiter.
  destruct (isZero hi), (negb (Nat.eqb lo 0)), greedy; reflexivity.
Qed.

(** A matcher hands to its continuation only states further in the
    same input. *)
Lemma rmatch_dead ml r :
  forall k s,
    Dead P s -> (forall s', Dead P s' -> k s' = None) ->
    rmatch ml r k s = None.
Proof.
  induction r as [p| |a IHa b IHb|a IHa b IHb|greedy lo hi r IH|i r IH| |];
    intros k s Hs Hk; cbn [rmatch].
  - destruct s as [b [|c rest] caps]; cbn [after before captures];
      [reflexivity|].
    destruct (p c); [|reflexivity]. apply Hk.
    exact (Dead_step _ _ Hs).
  - now apply Hk.
  - apply IHa; [exact Hs|]. intros s' Hs'. now apply IHb.
  - rewrite IHa, IHb by assumption. reflexivity.
  - apply repeatMatcher_dead; assumption.
  - apply IH; [exact Hs|]. intros s' Hs'. apply Hk.
    intros c Hc. now apply Hs'.
  - rewrite (Hk s Hs). now destruct (atBol ml s).
  - rewrite (Hk s Hs). now destruct (atEol ml s).
Qed.

Lemma rmatch_needs ml r :
  Needs P r -> forall k s, Dead P s -> rmatch ml r k s = None.
Proof.
  induction 1 as [p Hp|a b _ IHa|a b _ IHb|a b _ IHa _ IHb|i r _ IH
                 |greedy lo hi r Hlo Hhi _ IH];
    intros k s Hs; cbn [rmatch].
  - destruct s as [b [|c rest] caps]; cbn [after before captures];
      [reflexivity|].
    destruct (p c) eqn:E; [|reflexivity].
    specialize (Hp c E).
    rewrite (Hs c (or_introl eq_refl)) in Hp. discriminate.
  - now apply IHa.
  - apply rmatch_dead; [exact Hs|]. intros s' Hs'. now apply IHb.
  - now rewrite IHa, IHb.
  - now apply IH.
  - cbn [repeatMatcher]. rewrite Hhi.
    destruct lo as [|lo]; [lia|]. cbn [Nat.eqb negb]. now apply IH.
Qed.

Lemma search_dead ml r :
  Needs P r ->
  forall fuel s, Dead P s -> search fuel ml r s = None.
Proof.
  intros Hr. induction fuel as [|fuel IH]; intros s Hs; cbn [search];
    unfold matchAt; rewrite (rmatch_needs ml Hr) by exact Hs;
    [now destruct (step s)|].
  unfold step. destruct s as [b [|c rest] caps]; cbn [after before captures];
    [reflexivity|].
  apply IH. exact (Dead_step _ _ Hs).
Qed.

(** A [replace] whose pattern needs a code unit the input does not hold
    returns the input. *)
Lemma replaceAll_needs ml r (f : Replacer) input :
  Needs P r -> (forall c, In c input -> P c = false) ->
  replaceAll ml r f input = input.
Proof.
  intros Hr Hin. unfold replaceAll. cbn [replaceLoop]. unfold exec.
  rewrite (search_dead ml Hr); [reflexivity|]. exact Hin.
Qed.

End PlainText.

Section PlainTextNormalized.
Import RegExp MarkdownConverter.

Lemma key_of_eqb x c :
  normalizerKey x = true -> (x =? c) = true -> normalizerKey c = true.
Proof. intros Hx E. apply N.eqb_eq in E. now subst. Qed.

Lemma needs_lit x : normalizerKey x = true -> Needs normalizerKey (lit x).
Proof. intros Hx. apply Needs_Chr. intros c. now apply key_of_eqb. Qed.

Lemma needs_space : Needs normalizerKey (Chr isSpace).
Proof.
  apply Needs_Chr. intros c Hc. unfold normalizerKey. now rewrite Hc.
Qed.

Lemma needs_blank : Needs normalizerKey (plus (oneOf [SP; TAB])).
Proof.
  apply Needs_Rep; [lia | reflexivity|]. apply Needs_Chr. intros c Hc.
  cbn [existsb] in Hc.
  repeat (apply orb_prop in Hc; destruct Hc as [Hc|Hc]);
    try discriminate Hc; apply N.eqb_eq in Hc; subst c; reflexivity.
Qed.

Lemma trim_without_space s :
  (forall c, In c s -> isSpace c = false) -> trim s = s.
Proof.
  intros H. destruct s as [|c s]; [reflexivity|].
  apply trim_solid.
  - apply H. now left.
  - destruct (rev (c :: s)) as [|x r] eqn:E.
    + apply (f_equal (@List.length N)) in E.
      rewrite length_rev in E. discriminate.
    + apply H. apply in_rev. rewrite E. now left.
Qed.

(** A text that holds no white space, no backtick and no greater-than
    sign leaves the normalizer as it came, so that a second pass changes
    nothing on it. *)
Theorem postProcess_keeps_plain_text markdown :
  (forall c, In c markdown -> normalizerKey c = false) ->
  postProcess markdown = markdown
  /\ postProcess (postProcess markdown) = postProcess markdown.
Proof.
  intros H.
  assert (Hfix : postProcess markdown = markdown).
  { unfold postProcess.
    rewrite (@replaceAll_needs normalizerKey false reBlankRuns);
      [|apply Needs_Rep; [lia | reflexivity | now apply needs_lit]
       |exact H].
    rewrite (@replaceAll_needs normalizerKey true reEdgeSpace);
      [|apply Needs_Alt;
        [apply Needs_SeqR, needs_blank | apply Needs_SeqL, needs_blank]
       |exact H].
    rewrite (@replaceAll_needs normalizerKey true reListMarker);
      [|apply Needs_SeqR, Needs_SeqR, needs_space | exact H].
    rewrite (@replaceAll_needs normalizerKey true reHeading);
      [|apply Needs_SeqR, Needs_SeqR, Needs_SeqL, needs_space | exact H].
    rewrite (@replaceAll_needs normalizerKey true reQuoteBlank);
      [|apply Needs_SeqR, Needs_SeqL; now apply needs_lit | exact H].
    rewrite (@replaceAll_needs normalizerKey false reFenced);
      [|apply Needs_SeqR, Needs_Group, Needs_SeqL, Needs_SeqL;
        now apply needs_lit
       |exact H].
    apply trim_without_space. intros c Hc. specialize (H c Hc).
    unfold normalizerKey in H. apply orb_false_elim in H.
    destruct H as [H _]. apply orb_false_elim in H. now destruct H. }
  split; [exact Hfix | now rewrite Hfix].
Qed.

End PlainTextNormalized.

Lemma postProcess_keeps_plain_text_witness :
  MarkdownConverter.postProcess (u "**bold**") = u "**bold**"
  /\ MarkdownConverter.postProcess (MarkdownConverter.postProcess (u "**bold**"))
     = MarkdownConverter.postProcess (u "**bold**").
Proof.
  apply postProcess_keeps_plain_text.
  intros c Hc. vm_compute in Hc.
  repeat (destruct Hc as [<-|Hc]; [reflexivity|]). destruct Hc.
Defined.
